(** * rdmpass: the server-side password derivation of [server.js]

    A shallow embedding of [expandEntropy], [buildCharacterSets],
    [generatePassword] and of the [/generate] request handler, together
    with the HMAC-SHA256 primitive of Node's [crypto] module that they
    call, and the properties of the derivation pipeline.

    Conventions.  A Node [Buffer] is a list of bytes, each an integer in
    [0,256).  A JavaScript string is the list of its UTF-16 code units.
    JavaScript numbers that the code only uses as integers are [Z] (or
    [nat] for indices and counts).  The two loops of [generatePassword]
    need not terminate, so they take a fuel argument: the outcome
    [Diverged] says that the fuel ran out, and "does not terminate" is
    "[Diverged] for every fuel". *)

From Stdlib Require Import ZArith List Lia String Ascii Bool.
Import ListNotations.

Local Open Scope Z_scope.

Definition Buffer := list Z.
Definition str := list Z.

(** ** Hexadecimal literals (for constants and test vectors) *)

Module Hex.

Definition digit (c : ascii) : Z :=
  let n := Z.of_nat (nat_of_ascii c) in
  if (48 <=? n) && (n <=? 57) then n - 48
  else if (97 <=? n) && (n <=? 102) then n - 87
  else 0.

Fixpoint bytes (s : string) : Buffer :=
  match s with
  | String hi (String lo rest) => (16 * digit hi + digit lo) :: bytes rest
  | _ => []
  end.

End Hex.

(** ** SHA-256 (FIPS 180-4) on 32-bit words held in [Z] *)

Module SHA256.

Definition mask32 : Z := 0xFFFFFFFF.

Definition add32 (x y : Z) : Z := Z.land (x + y) mask32.
Definition not32 (x : Z) : Z := Z.lxor x mask32.
Definition shr (n x : Z) : Z := Z.shiftr x n.
Definition rotr (n x : Z) : Z :=
  Z.lor (Z.shiftr x n) (Z.land (Z.shiftl x (32 - n)) mask32).

Definition Ch (x y z : Z) : Z := Z.lxor (Z.land x y) (Z.land (not32 x) z).
Definition Maj (x y z : Z) : Z :=
  Z.lxor (Z.lxor (Z.land x y) (Z.land x z)) (Z.land y z).
Definition Sigma0 (x : Z) : Z := Z.lxor (Z.lxor (rotr 2 x) (rotr 13 x)) (rotr 22 x).
Definition Sigma1 (x : Z) : Z := Z.lxor (Z.lxor (rotr 6 x) (rotr 11 x)) (rotr 25 x).
Definition sigma0 (x : Z) : Z := Z.lxor (Z.lxor (rotr 7 x) (rotr 18 x)) (shr 3 x).
Definition sigma1 (x : Z) : Z := Z.lxor (Z.lxor (rotr 17 x) (rotr 19 x)) (shr 10 x).

(** Big-endian packing of bytes into 32-bit words and back. *)
Fixpoint words (bs : Buffer) : list Z :=
  match bs with
  | b3 :: b2 :: b1 :: b0 :: rest =>
      (((b3 * 256 + b2) * 256 + b1) * 256 + b0) :: words rest
  | _ => []
  end.

Definition be32 (x : Z) : Buffer :=
  [ (x / 16777216) mod 256; (x / 65536) mod 256; (x / 256) mod 256; x mod 256 ].

Definition K : list Z := words (Hex.bytes
  ("428a2f9871374491b5c0fbcfe9b5dba53956c25b59f111f1923f82a4ab1c5ed5" ++
   "d807aa9812835b01243185be550c7dc372be5d7480deb1fe9bdc06a7c19bf174" ++
   "e49b69c1efbe47860fc19dc6240ca1cc2de92c6f4a7484aa5cb0a9dc76f988da" ++
   "983e5152a831c66db00327c8bf597fc7c6e00bf3d5a7914706ca635114292967" ++
   "27b70a852e1b21384d2c6dfc53380d13650a7354766a0abb81c2c92e92722c85" ++
   "a2bfe8a1a81a664bc24b8b70c76c51a3d192e819d6990624f40e3585106aa070" ++
   "19a4c1161e376c082748774c34b0bcb5391c0cb34ed8aa4a5b9cca4f682e6ff3" ++
   "748f82ee78a5636f84c878148cc7020890befffaa4506cebbef9a3f7c67178f2")).

Record regs := Regs { ra : Z; rb : Z; rc : Z; rd : Z; re : Z; rf : Z; rg : Z; rh : Z }.

Definition H0 : regs :=
  Regs 0x6a09e667 0xbb67ae85 0x3c6ef372 0xa54ff53a
       0x510e527f 0x9b05688c 0x1f83d9ab 0x5be0cd19.

(** One round; [kw] is the round constant plus the schedule word. *)
Definition round (kw : Z) (r : regs) : regs :=
  let t1 := add32 (add32 (add32 (rh r) (Sigma1 (re r))) (Ch (re r) (rf r) (rg r))) kw in
  let t2 := add32 (Sigma0 (ra r)) (Maj (ra r) (rb r) (rc r)) in
  Regs (add32 t1 t2) (ra r) (rb r) (rc r) (add32 (rd r) t1) (re r) (rf r) (rg r).

(** The message schedule as a sliding window of sixteen words:
    W[t+16] = sigma1 W[t+14] + W[t+9] + sigma0 W[t+1] + W[t]. *)
Definition slide (w : list Z) : list Z :=
  tl w ++ [ add32 (add32 (sigma1 (nth 14 w 0)) (nth 9 w 0))
                  (add32 (sigma0 (nth 1 w 0)) (nth 0 w 0)) ].

Fixpoint rounds (ks : list Z) (w : list Z) (r : regs) : regs :=
  match ks with
  | [] => r
  | k :: ks' => rounds ks' (slide w) (round (add32 k (nth 0 w 0)) r)
  end.

Definition compress (hs : regs) (block : list Z) : regs :=
  let r := rounds K block hs in
  Regs (add32 (ra hs) (ra r)) (add32 (rb hs) (rb r))
       (add32 (rc hs) (rc r)) (add32 (rd hs) (rd r))
       (add32 (re hs) (re r)) (add32 (rf hs) (rf r))
       (add32 (rg hs) (rg r)) (add32 (rh hs) (rh r)).

Definition be64 (x : Z) : Buffer := be32 (x / 4294967296) ++ be32 x.

Definition pad (msg : Buffer) : Buffer :=
  let len := Z.of_nat (List.length msg) in
  msg ++ [128] ++ repeat 0 (Z.to_nat ((55 - len) mod 64)) ++ be64 (8 * len).

Fixpoint chunks (n : nat) (ws : list Z) : list (list Z) :=
  match n with
  | O => []
  | S n' => firstn 16 ws :: chunks n' (skipn 16 ws)
  end.

Definition digest (r : regs) : Buffer :=
  be32 (ra r) ++ be32 (rb r) ++ be32 (rc r) ++ be32 (rd r) ++
  be32 (re r) ++ be32 (rf r) ++ be32 (rg r) ++ be32 (rh r).

Definition hash (msg : Buffer) : Buffer :=
  let ws := words (pad msg) in
  digest (fold_left compress (chunks (List.length ws / 16) ws) H0).

End SHA256.

(** ** HMAC (RFC 2104) over SHA-256: [crypto.createHmac('sha256', key)] *)

Definition hmac_sha256 (key msg : Buffer) : Buffer :=
  let k0 := if (64 <? List.length key)%nat then SHA256.hash key else key in
  let k := k0 ++ repeat 0 (64 - List.length k0)%nat in
  SHA256.hash (map (Z.lxor 0x5c) k ++ SHA256.hash (map (Z.lxor 0x36) k ++ msg)).

(** The code units of an ASCII literal. *)
Definition ascii_codes (s : string) : str :=
  map (fun c => Z.of_nat (nat_of_ascii c)) (list_ascii_of_string s).

(** ** Outcomes of a JavaScript call *)

Inductive outcome (A : Type) : Type :=
| Returned (value : A)
| Thrown (message : string)
| Diverged.

Arguments Returned {A} value.
Arguments Thrown {A} message.
Arguments Diverged {A}.

(** ** [expandEntropy(entropy, byteCount)]

    [Buffer.from([i])] stores the array element [i] as one byte, that is
    [i & 255]; every digest is 32 bytes long, so the copies at offsets
    [i * 32] fill [out] with the digests one after the other. *)

Definition counter (i : nat) : Buffer := [Z.of_nat i mod 256].

Definition block (entropy : Buffer) (i : nat) : Buffer :=
  hmac_sha256 entropy (counter i).

Definition expandEntropy (entropy : Buffer) (byteCount : nat) : Buffer :=
  let blocks := ((byteCount + 31) / 32)%nat in
  let out := flat_map (block entropy) (seq 0 blocks) in
  firstn byteCount out.

(** ** Settings, as the [/generate] request carries them

    [length] is an integer, as the data model declares it, and [None]
    when the field is absent; [customCharacters] is the empty string
    when absent. *)

Record Settings := {
  length : option Z;
  includeLowercase : bool;
  includeUppercase : bool;
  includeNumbers : bool;
  includeSymbols : bool;
  includeExtendedLatin : bool;
  customCharacters : str;
  requireEachSelected : bool
}.

(** The keys of the [selected] object. *)
Inductive Category : Type :=
| lowercase | uppercase | numbers | symbols | extendedLatin | custom.

Definition Category_eqb (x y : Category) : bool :=
  match x, y with
  | lowercase, lowercase | uppercase, uppercase | numbers, numbers
  | symbols, symbols | extendedLatin, extendedLatin | custom, custom => true
  | _, _ => false
  end.

(** The [sets] object of [buildCharacterSets]. *)
Module sets.
Definition lowercase : str := ascii_codes "abcdefghijklmnopqrstuvwxyz".
Definition uppercase : str := ascii_codes "ABCDEFGHIJKLMNOPQRSTUVWXYZ".
Definition numbers : str := ascii_codes "0123456789".
Definition symbols : str :=
  ascii_codes "!" ++ [34] ++ ascii_codes "#$%&'()*+,-./:;<=>?@[\]^_`{|}~".
(** [for (code = 0xA0; code <= 0xFF; code++) extended += String.fromCharCode(code)] *)
Definition extendedLatin : str := map Z.of_nat (seq 0xA0 (0xFF + 1 - 0xA0)).
End sets.

Record CharacterSets := {
  fullSet : str;
  categories : list (Category * str)
}.

(** One [if (flag) { selected.key = chars; fullSet += chars; }]. *)
Definition select (flag : bool) (key : Category) (chars : str)
    (acc : CharacterSets) : CharacterSets :=
  if flag
  then {| fullSet := fullSet acc ++ chars;
          categories := categories acc ++ [(key, chars)] |}
  else acc.

(** Truthiness of a string: it is not empty. *)
Definition truthy (s : str) : bool :=
  match s with [] => false | _ :: _ => true end.

Definition no_categories_message : string := "No character categories selected".

Definition buildCharacterSets (settings : Settings) : outcome CharacterSets :=
  let acc := {| fullSet := []; categories := [] |} in
  let acc := select (includeLowercase settings) lowercase sets.lowercase acc in
  let acc := select (includeUppercase settings) uppercase sets.uppercase acc in
  let acc := select (includeNumbers settings) numbers sets.numbers acc in
  let acc := select (includeSymbols settings) symbols sets.symbols acc in
  let acc := select (includeExtendedLatin settings) extendedLatin sets.extendedLatin acc in
  let acc := select (truthy (customCharacters settings)) custom
                    (customCharacters settings) acc in
  if truthy (fullSet acc) then Returned acc
  else Thrown no_categories_message.

(** ** String primitives used by the sampler *)

(** [s.charAt(i)]: the one-unit string at position [i], or the empty
    string when [i] is out of range. *)
Definition charAt (s : str) (i : nat) : str :=
  match nth_error s i with
  | Some c => [c]
  | None => []
  end.

Fixpoint startsWith (s sub : str) : bool :=
  match sub, s with
  | [], _ => true
  | _ :: _, [] => false
  | x :: sub', y :: s' => (x =? y) && startsWith s' sub'
  end.

(** [s.includes(sub)]: [sub] occurs in [s] as a contiguous substring. *)
Fixpoint includes (s sub : str) : bool :=
  startsWith s sub ||
  match s with
  | [] => false
  | _ :: s' => includes s' sub
  end.

(** ** [generatePassword(entropy, settings)] *)

(** [Math.max(1, Math.min(settings.length || 16, 2048))]: [0] is falsy,
    as is an absent field. *)
Definition or_default (v : option Z) (d : Z) : Z :=
  match v with
  | Some n => if n =? 0 then d else n
  | None => d
  end.

Definition passwordLength (settings : Settings) : Z :=
  Z.max 1 (Z.min (or_default (length settings) 16) 2048).

(** The rejection threshold [256 - (256 % setLength)]. *)
Definition max (setLength : Z) : Z := 256 - (256 mod setLength).

(** The variables of one pass of the [do ... while (true)] body. *)
Record Candidate := {
  expanded : Buffer;
  p : nat;
  chars : list str;
  present : list Category
}.

Definition has (present : list Category) (key : Category) : bool :=
  existsb (Category_eqb key) present.

Section Sampler.

Variable entropy : Buffer.
Variable sets : CharacterSets.
Variable passwordLength : Z.
Variable requireEach : bool.

Let setLength : Z := Z.of_nat (List.length (fullSet sets)).

(** [for (key in categories) if (categories[key].includes(ch)) present[key] = true] *)
Definition record_categories (ch : str) (present : list Category) : list Category :=
  fold_left
    (fun pr entry => if includes (snd entry) ch then fst entry :: pr else pr)
    (categories sets) present.

(** [chars.push(ch)] and the category bookkeeping that follows it. *)
Definition push (expanded1 : Buffer) (ch : str) (st : Candidate) : Candidate :=
  {| expanded := expanded1;
     p := S (p st);
     chars := chars st ++ [ch];
     present := record_categories ch (present st) |}.

(** [if (p >= expanded.length) expanded = Buffer.concat([expanded, expandEntropy(entropy, 32)])] *)
Definition refill (st : Candidate) : Buffer :=
  if (List.length (expanded st) <=? p st)%nat
  then expanded st ++ expandEntropy entropy 32
  else expanded st.

(** One pass of the body of [while (chars.length < passwordLength)].
    Reading [expanded[p]] past the end gives [undefined]; then
    [byte >= max] is false, the index [byte % setLength] is [NaN] and
    [charAt(NaN)] is [charAt(0)].  [setLength] is positive here, the
    builder having thrown on an empty alphabet, and on a byte and a
    positive length [%] is [mod]. *)
Definition iteration (st : Candidate) : Candidate :=
  let expanded1 := refill st in
  match nth_error expanded1 (p st) with
  | Some byte =>
      if max setLength <=? byte
      then {| expanded := expanded1; p := S (p st);
              chars := chars st; present := present st |}
      else push expanded1 (charAt (fullSet sets) (Z.to_nat (byte mod setLength))) st
  | None => push expanded1 (charAt (fullSet sets) 0) st
  end.

(** The inner [while] loop. *)
Fixpoint fill (fuel : nat) (st : Candidate) : option Candidate :=
  if Z.of_nat (List.length (chars st)) <? passwordLength
  then match fuel with
       | O => None
       | S fuel' => fill fuel' (iteration st)
       end
  else Some st.

(** [const chars = []; const present = {}; let p = 0;] *)
Definition fresh (expanded0 : Buffer) : Candidate :=
  {| expanded := expanded0; p := 0; chars := []; present := [] |}.

(** The check after the inner loop: every key of [categories] is in
    [present]. *)
Definition ok (st : Candidate) : bool :=
  forallb (fun entry => has (present st) (fst entry)) (categories sets).

(** [chars.join('')] *)
Definition join (cs : list str) : str := List.concat cs.

(** The outer [do { ... } while (true)] loop; [expanded0] is the value
    of the variable [expanded] on entry to the pass. *)
Fixpoint attempts (fuel : nat) (expanded0 : Buffer) : outcome str :=
  match fuel with
  | O => Diverged
  | S fuel' =>
      match fill fuel (fresh expanded0) with
      | None => Diverged
      | Some st =>
          let result := join (chars st) in
          if negb requireEach then Returned result
          else if ok st then Returned result
          else attempts fuel' (expanded st)
      end
  end.

End Sampler.

Definition generatePassword (fuel : nat) (entropy : Buffer) (settings : Settings)
    : outcome str :=
  match buildCharacterSets settings with
  | Thrown message => Thrown message
  | Diverged => Diverged
  | Returned sets =>
      let passwordLength := passwordLength settings in
      let requireEach := requireEachSelected settings in
      let neededBytes := Z.to_nat (passwordLength * 2) in
      let expanded := expandEntropy entropy neededBytes in
      attempts entropy sets passwordLength requireEach fuel expanded
  end.

(** ** [generatePassword] over its variables and the engine's choices

    The definitions above hand each pass of the loops new values.  The
    ones below spell out what that relies on.  The variables of the
    function sit in a store whose contents on entry are arbitrary (they
    may be what an earlier call left), and each declaration and
    assignment of the source is a write to it.  The order in which
    [for (const key in categories)] visits the keys is left to the
    engine: loop number [n] of the evaluation visits them in the order
    [enumerate n]. *)

Record Store := {
  locals : Candidate;     (* [expanded], [p], [chars], [present] *)
  result : option str;    (* declared by [let result;], [undefined] until assigned *)
  loops : nat             (* [for ... in] loops that the engine has run *)
}.

Definition Enumeration : Type :=
  nat -> list (Category * str) -> list (Category * str).

Section Evaluation.

Variable enumerate : Enumeration.
Variable entropy : Buffer.
Variable sets : CharacterSets.
Variable passwordLength : Z.
Variable requireEach : bool.

Let setLength : Z := Z.of_nat (List.length (fullSet sets)).

(** [for (const key in categories) if (categories[key].includes(ch)) present[key] = true],
    the keys visited in the order of [entries]. *)
Definition record_in_order (entries : list (Category * str)) (ch : str)
    (present : list Category) : list Category :=
  fold_left
    (fun pr entry => if includes (snd entry) ch then fst entry :: pr else pr)
    entries present.

(** [chars.push(ch)] and the [for ... in] loop that follows it. *)
Definition push_in (expanded1 : Buffer) (ch : str) (store : Store) : Store :=
  {| locals :=
       {| expanded := expanded1;
          p := S (p (locals store));
          chars := chars (locals store) ++ [ch];
          present :=
            record_in_order (enumerate (loops store) (categories sets)) ch
                            (present (locals store)) |};
     result := result store;
     loops := S (loops store) |}.

(** One pass of the body of [while (chars.length < passwordLength)]. *)
Definition iteration_in (store : Store) : Store :=
  let expanded1 := refill entropy (locals store) in
  match nth_error expanded1 (p (locals store)) with
  | Some byte =>
      if max setLength <=? byte
      then {| locals :=
                {| expanded := expanded1; p := S (p (locals store));
                   chars := chars (locals store);
                   present := present (locals store) |};
              result := result store;
              loops := loops store |}
      else push_in expanded1
                   (charAt (fullSet sets) (Z.to_nat (byte mod setLength))) store
  | None => push_in expanded1 (charAt (fullSet sets) 0) store
  end.

(** The inner [while] loop. *)
Fixpoint fill_in (fuel : nat) (store : Store) : option Store :=
  if Z.of_nat (List.length (chars (locals store))) <? passwordLength
  then match fuel with
       | O => None
       | S fuel' => fill_in fuel' (iteration_in store)
       end
  else Some store.

(** [const chars = []; const present = {}; let p = 0;] at the head of
    the [do] body: three writes; [expanded] and [result] keep what they
    hold. *)
Definition enter_pass (store : Store) : Store :=
  {| locals := fresh (expanded (locals store));
     result := result store;
     loops := loops store |}.

(** [result = chars.join('')] *)
Definition assign_result (store : Store) : Store :=
  {| locals := locals store;
     result := Some (join (chars (locals store)));
     loops := loops store |}.

(** The check after the inner loop, a [for ... in] loop that stops at
    the first key missing from [present]. *)
Definition ok_in (store : Store) : bool :=
  forallb (fun entry => has (present (locals store)) (fst entry))
          (enumerate (loops store) (categories sets)).

Definition after_check (store : Store) : Store :=
  {| locals := locals store;
     result := result store;
     loops := S (loops store) |}.

(** [return result]: the value of the variable; [undefined] had it
    never been assigned. *)
Definition return_result (store : Store) : outcome (option str) :=
  Returned (result store).

(** The outer [do { ... } while (true)] loop. *)
Fixpoint attempts_in (fuel : nat) (store : Store) : outcome (option str) * Store :=
  match fuel with
  | O => (Diverged, store)
  | S fuel' =>
      match fill_in fuel (enter_pass store) with
      | None => (Diverged, enter_pass store)
      | Some filled =>
          let assigned := assign_result filled in
          if negb requireEach then (return_result assigned, assigned)
          else if ok_in assigned
               then (return_result (after_check assigned), after_check assigned)
               else attempts_in fuel' (after_check assigned)
      end
  end.

End Evaluation.

(** The function body: [let expanded = expandEntropy(entropy, neededBytes)]
    and [let result;] write two variables, the others hold what they
    held until the first pass of the loop writes them. *)
Definition evaluate (enumerate : Enumeration) (fuel : nat) (entropy : Buffer)
    (settings : Settings) (store : Store) : outcome (option str) * Store :=
  match buildCharacterSets settings with
  | Thrown message => (Thrown message, store)
  | Diverged => (Diverged, store)
  | Returned sets =>
      let passwordLength := passwordLength settings in
      let requireEach := requireEachSelected settings in
      let neededBytes := Z.to_nat (passwordLength * 2) in
      let declared :=
        {| locals :=
             {| expanded := expandEntropy entropy neededBytes;
                p := p (locals store);
                chars := chars (locals store);
                present := present (locals store) |};
           result := None;
           loops := loops store |} in
      attempts_in enumerate entropy sets passwordLength requireEach fuel declared
  end.

(** What the caller of the function receives: a string, or [undefined]
    ([None]). *)
Definition received (o : outcome str) : outcome (option str) :=
  match o with
  | Returned pw => Returned (Some pw)
  | Thrown message => Thrown message
  | Diverged => Diverged
  end.

(** The engine visits every key of the object, and only those, in an
    order of its choice. *)
Definition exhaustive (enumerate : Enumeration) : Prop :=
  forall n entries entry, In entry (enumerate n entries) <-> In entry entries.

(** The variables of the store hold the values of the candidate, the
    keys of [present] up to the order in which they were added. *)
Definition agrees (store : Store) (st : Candidate) : Prop :=
  expanded (locals store) = expanded st /\
  p (locals store) = p st /\
  chars (locals store) = chars st /\
  (forall key, In key (present (locals store)) <-> In key (present st)).

(** Two engines for the sample runs: insertion order, and an order that
    alternates with each loop between insertion order and its reverse. *)
Definition insertion_order : Enumeration := fun _ entries => entries.

Definition alternating_order : Enumeration :=
  fun n entries => if Nat.even n then rev entries else entries.

(** A store holding the leftovers of some other computation. *)
Definition leftovers : Store :=
  {| locals :=
       {| expanded := [1; 2; 3]; p := 7;
          chars := [ascii_codes "x"; ascii_codes "y"];
          present := [custom; symbols] |};
     result := Some (ascii_codes "stale");
     loops := 5 |}.

(** ** The [/generate] handler, from the parsed body on

    [parsed] is the value of [JSON.parse(body)], [None] when it is falsy.
    The [entropy] field holds the bytes that its base64 text decodes to,
    and is [None] when the field is absent or the empty string.  The
    handler answers from inside a [try]/[catch]: a thrown error becomes
    a 400 response carrying its message.

    [Parsed] covers the bodies whose fields have the types that the
    front end sends: [entropy] a string, [settings] an object whose
    fields are typed as in [Settings].  A body that is not JSON, or that
    carries a value of another type (a number for [entropy] or for
    [customCharacters], on which [Buffer.from] or [includes] throws a
    [TypeError] with a message of its own), is not a [Parsed]. *)

Record Parsed := {
  entropy : option Buffer;
  settings : option Settings
}.

Inductive ResponseBody : Type :=
| password (value : str)
| error (message : string).

Record Response := {
  status : Z;
  body : ResponseBody
}.

Definition missing_fields_message : string := "Missing required fields".
Definition entropy_size_message : string :=
  "Entropy must be exactly 256 bits (32 bytes)".

Definition try_block (fuel : nat) (parsed : option Parsed) : outcome str :=
  match parsed with
  | Some {| entropy := Some seed; settings := Some s |} =>
      if negb (List.length seed =? 32)%nat then Thrown entropy_size_message
      else generatePassword fuel seed s
  | _ => Thrown missing_fields_message
  end.

(** [None]: the handler has not answered within the fuel. *)
Definition on_end (fuel : nat) (parsed : option Parsed) : option Response :=
  match try_block fuel parsed with
  | Returned pw => Some {| status := 200; body := password pw |}
  | Thrown message => Some {| status := 400; body := error message |}
  | Diverged => None
  end.

(** ** The front end: collecting mouse movements

    [handleMove] and [startCollection] of the React component, over the
    two refs they mutate.  A sample [{x, y, t}] is opaque to them, so
    its type is a parameter.  [requiredMoves] is the integer that the
    slider holds when the listener was registered; the state setters
    and the call of [computeEntropy] are recorded, in order, as effects.
    The argument [Math.min(1, count / requiredMoves)] of [setProgress]
    is recorded by its two operands. *)

Module Client.

Section Collecting.

Variable Sample : Type.

Record Refs := {
  movementRef : list Sample;
  hasComputedEntropy : bool
}.

Inductive Effect : Type :=
| setMouseCount (count : nat)
| setProgress (count requiredMoves : nat)
| setCollecting (value : bool)
| computeEntropy (movements : list Sample).

(** The refs as [startCollection] leaves them. *)
Definition startCollection : Refs :=
  {| movementRef := []; hasComputedEntropy := false |}.

Definition handleMove (requiredMoves : nat) (sample : Sample) (refs : Refs)
    : Refs * list Effect :=
  if (requiredMoves <=? List.length (movementRef refs))%nat then (refs, [])
  else
    let movements := movementRef refs ++ [sample] in
    let count := List.length movements in
    let shown := [setMouseCount count; setProgress count requiredMoves] in
    if (requiredMoves <=? count)%nat && negb (hasComputedEntropy refs)
    then ({| movementRef := movements; hasComputedEntropy := true |},
          shown ++ [setCollecting false; computeEntropy movements])
    else ({| movementRef := movements;
             hasComputedEntropy := hasComputedEntropy refs |},
          shown).

(** A run of mouse events, each handled by the listener registered for
    the value of [requiredMoves] of that moment. *)
Fixpoint handleMoves (events : list (nat * Sample)) (refs : Refs)
    : Refs * list Effect :=
  match events with
  | [] => (refs, [])
  | (requiredMoves, sample) :: rest =>
      let (refs1, effects1) := handleMove requiredMoves sample refs in
      let (refs2, effects2) := handleMoves rest refs1 in
      (refs2, effects1 ++ effects2)
  end.

(** The arguments of the calls of [computeEntropy] among the effects. *)
Fixpoint computed (effects : list Effect) : list (list Sample) :=
  match effects with
  | [] => []
  | computeEntropy movements :: rest => movements :: computed rest
  | _ :: rest => computed rest
  end.

End Collecting.

Arguments movementRef {Sample} _.
Arguments hasComputedEntropy {Sample} _.
Arguments setMouseCount {Sample} count.
Arguments setProgress {Sample} count requiredMoves.
Arguments setCollecting {Sample} value.
Arguments computeEntropy {Sample} movements.
Arguments startCollection {Sample}.
Arguments handleMove {Sample} requiredMoves sample refs.
Arguments handleMoves {Sample} events refs.
Arguments computed {Sample} effects.

End Client.

(** ** Vocabulary of the statements *)

(** The positions of [expanded] read by the pass that ended in [st]:
    every pass starts at [p = 0] and reads [expanded[p++]]. *)
Definition consumed (st : Candidate) : list nat := seq 0 (p st).

(** [pw] has a character of the category string [set]. *)
Definition represents (pw set : str) : Prop := exists c, In c pw /\ In c set.

(** The requested length clamped into [[lo,hi]]. *)
Definition clamp (lo hi n : Z) : Z := Z.max lo (Z.min n hi).

Definition is_byte (b : Z) : Prop := 0 <= b < 256.

(** [ch] is a one-unit string whose unit is in [alphabet]. *)
Definition single_from (alphabet : str) (ch : str) : Prop :=
  exists c, ch = [c] /\ In c alphabet.

(** What every pass of the inner loop keeps true of its variables. *)
Record sound (cs : CharacterSets) (st : Candidate) : Prop := {
  sound_p : (p st <= List.length (expanded st))%nat;
  sound_bytes : Forall is_byte (expanded st);
  sound_chars : Forall (single_from (fullSet cs)) (chars st);
  sound_present : forall key, In key (present st) ->
    exists set c, In (key, set) (categories cs) /\ In [c] (chars st) /\ In c set
}.

(** Nothing selected so far, and the buffer is in order. *)
Definition barren (st : Candidate) : Prop :=
  chars st = [] /\ (p st <= List.length (expanded st))%nat /\
  Forall is_byte (expanded st).

(** The same loop variables over another value of [expanded]. *)
Definition with_expanded (buffer : Buffer) (st : Candidate) : Candidate :=
  {| expanded := buffer; p := p st; chars := chars st; present := present st |}.

(** The alphabet of the settings, empty when the builder throws. *)
Definition alphabet (s : Settings) : str :=
  match buildCharacterSets s with
  | Returned cs => fullSet cs
  | _ => []
  end.

(** The buffer on entry to the first pass of [generatePassword]. *)
Definition first_expansion (seed : Buffer) (s : Settings) : Buffer :=
  expandEntropy seed (Z.to_nat (passwordLength s * 2)).

(** The number of HMAC blocks that [expandEntropy] computes:
    [Math.ceil(byteCount / 32)]. *)
Definition blocks (byteCount : nat) : nat := ((byteCount + 31) / 32)%nat.

(** The byte counts that the program passes to [expandEntropy], whose
    only callers are the two calls in [generatePassword]: [neededBytes]
    before the loops, and 32 at each re-expansion. *)
Definition requested (s : Settings) : list nat :=
  [Z.to_nat (passwordLength s * 2); 32%nat].

(** ** Sample inputs *)

Definition zero_seed : Buffer := repeat 0 32.

Definition settings_of (len : Z) (lower upper digits syms latin : bool)
    (customChars : str) (requireEach : bool) : Settings :=
  {| length := Some len;
     includeLowercase := lower; includeUppercase := upper;
     includeNumbers := digits; includeSymbols := syms;
     includeExtendedLatin := latin;
     customCharacters := customChars;
     requireEachSelected := requireEach |}.

(** Eight lowercase letters, no coverage requirement. *)
Definition lower8 : Settings := settings_of 8 true false false false false [] false.

(** Eight characters of lowercase and digits, coverage required. *)
Definition lower_digits8 : Settings := settings_of 8 true false true false false [] true.

(** One character that would have to be both a letter and a digit. *)
Definition uncoverable : Settings := settings_of 1 true false true false false [] true.

Definition lower_digits_sets : CharacterSets :=
  {| fullSet := sets.lowercase ++ sets.numbers;
     categories := [(lowercase, sets.lowercase); (numbers, sets.numbers)] |}.

(** The front end's default settings with "require one of each
    selected" ticked: sixteen characters of lowercase, uppercase, numbers
    and symbols. *)
Definition defaults_require_each : Settings :=
  settings_of 16 true true true true false [] true.

Definition defaults_sets : CharacterSets :=
  {| fullSet := sets.lowercase ++ sets.uppercase ++ sets.numbers ++ sets.symbols;
     categories := [(lowercase, sets.lowercase); (uppercase, sets.uppercase);
                    (numbers, sets.numbers); (symbols, sets.symbols)] |}.

(** Eight symbols: an alphabet of 32 characters. *)
Definition symbols8 : Settings := settings_of 8 false false false true false [] false.

Definition symbols_sets : CharacterSets :=
  {| fullSet := sets.symbols; categories := [(symbols, sets.symbols)] |}.

(** Sixty-eight characters of symbols, extended Latin and the custom
    character a: an alphabet of 129 characters, which rejects almost
    half of the byte values. *)
Definition half_rejecting : Settings :=
  settings_of 68 false false false true true (ascii_codes "a") false.

Definition half_rejecting_sets : CharacterSets :=
  {| fullSet := sets.symbols ++ sets.extendedLatin ++ ascii_codes "a";
     categories := [(symbols, sets.symbols); (extendedLatin, sets.extendedLatin);
                    (custom, ascii_codes "a")] |}.

(** The first pass for [half_rejecting] on the zero seed. *)
Definition half_rejecting_pass :=
  Eval vm_compute in
    match fill zero_seed half_rejecting_sets (passwordLength half_rejecting) 140
               (fresh (first_expansion zero_seed half_rejecting)) with
    | Some st => st
    | None => fresh []
    end.

(** Four characters, the shortest length the front end offers, with
    all five standard categories required. *)
Definition five_in_four : Settings := settings_of 4 true true true true true [] true.

Definition five_sets : CharacterSets :=
  {| fullSet := sets.lowercase ++ sets.uppercase ++ sets.numbers ++ sets.symbols ++
                sets.extendedLatin;
     categories := [(lowercase, sets.lowercase); (uppercase, sets.uppercase);
                    (numbers, sets.numbers); (symbols, sets.symbols);
                    (extendedLatin, sets.extendedLatin)] |}.

(** Nothing selected. *)
Definition nothing_selected : Settings :=
  settings_of 16 false false false false false [] false.

(** All five categories and 67 custom characters: 257 in all. *)
Definition oversized : Settings :=
  settings_of 16 true true true true true (map Z.of_nat (seq 0x400 67)) false.

Definition oversized_sets : CharacterSets :=
  {| fullSet := sets.lowercase ++ sets.uppercase ++ sets.numbers ++ sets.symbols ++
                sets.extendedLatin ++ map Z.of_nat (seq 0x400 67);
     categories := [(lowercase, sets.lowercase); (uppercase, sets.uppercase);
                    (numbers, sets.numbers); (symbols, sets.symbols);
                    (extendedLatin, sets.extendedLatin);
                    (custom, map Z.of_nat (seq 0x400 67))] |}.

(** Requested lengths 0 and 5000. *)
Definition zero_length : Settings := settings_of 0 true false false false false [] false.
Definition too_long : Settings := settings_of 5000 true false false false false [] false.

Definition too_long_password :=
  Eval vm_compute in
    match generatePassword 3000 zero_seed too_long with
    | Returned pw => pw
    | _ => []
    end.

(** ** Static files: [resolveClientPath]

    Node's [path] module on a POSIX system, by path segments.
    [normalizeString] drops empty and [.] segments, lets a [..] segment
    remove the segment before it (unless that is itself [..]) and, at
    the root of an absolute path, drops it. *)

Module path.

Definition slash : Z := 47.
Definition dot : Z := 46.

Fixpoint str_eqb (a b : str) : bool :=
  match a, b with
  | [], [] => true
  | x :: a', y :: b' => (x =? y) && str_eqb a' b'
  | _, _ => false
  end.

(** [s.split('/')] *)
Fixpoint split (s : str) : list str :=
  match s with
  | [] => [[]]
  | c :: s' =>
      if c =? slash then [] :: split s'
      else match split s' with
           | seg :: segs => (c :: seg) :: segs
           | [] => [[c]]
           end
  end.

(** [segments.join('/')] *)
Fixpoint join_segments (segs : list str) : str :=
  match segs with
  | [] => []
  | [seg] => seg
  | seg :: rest => seg ++ slash :: join_segments rest
  end.

(** One segment against the segments kept so far, the last one first. *)
Definition step (allowAboveRoot : bool) (res : list str) (seg : str) : list str :=
  if str_eqb seg [] || str_eqb seg [dot] then res
  else if str_eqb seg [dot; dot] then
    match res with
    | previous :: before =>
        if str_eqb previous [dot; dot]
        then (if allowAboveRoot then seg :: res else res)
        else before
    | [] => if allowAboveRoot then [seg] else []
    end
  else seg :: res.

Definition normalizeString (p : str) (allowAboveRoot : bool) : str :=
  join_segments (rev (fold_left (step allowAboveRoot) (split p) [])).

Definition normalize (p : str) : str :=
  match p with
  | [] => [dot]
  | first :: _ =>
      let isAbsolute := first =? slash in
      let trailingSeparator := last p 0 =? slash in
      match normalizeString p (negb isAbsolute) with
      | [] => if isAbsolute then [slash]
              else if trailingSeparator then [dot; slash] else [dot]
      | normalized =>
          let normalized :=
            if trailingSeparator then normalized ++ [slash] else normalized in
          if isAbsolute then slash :: normalized else normalized
      end
  end.

(** [path.join(a, b)]: the non-empty arguments joined by a slash, then
    normalized. *)
Definition join (a b : str) : str :=
  match a, b with
  | [], [] => [dot]
  | [], _ => normalize b
  | _, [] => normalize a
  | _, _ => normalize (a ++ slash :: b)
  end.

End path.

(** [decoded.replace(/^\/+/, '')] *)
Fixpoint strip_leading_slashes (s : str) : str :=
  match s with
  | c :: s' => if c =? path.slash then strip_leading_slashes s' else s
  | [] => []
  end.

(** [clientDir = path.join(__dirname, 'client')] *)
Definition clientDir (dirname : str) : str :=
  path.join dirname (ascii_codes "client").

(** [resolveClientPath], from [decoded] on: [decoded] is the value of
    [decodeURI(urlPath.split('?')[0])].  [None] is [null]. *)
Definition resolveClientPath (dirname : str) (decoded : str) : option str :=
  let safeSuffix := strip_leading_slashes decoded in
  let filePath := path.join (clientDir dirname) safeSuffix in
  let normalized := path.normalize filePath in
  if negb (startsWith normalized (clientDir dirname)) then None
  else Some normalized.

Definition noslash (seg : str) : Prop := ~ In path.slash seg.

(** A segment with no slash that is neither empty nor [.] nor [..]. *)
Definition clean (seg : str) : bool :=
  forallb (fun c => negb (c =? path.slash)) seg &&
  negb (path.str_eqb seg []) && negb (path.str_eqb seg [path.dot]) &&
  negb (path.str_eqb seg [path.dot; path.dot]).

(** The absolute path with the given segments. *)
Definition absolute (segs : list str) : str :=
  path.slash :: path.join_segments segs.

(** ** The entropy on the wire

    The front end sends [btoa] of the 32 digest bytes and the handler
    reads it with [Buffer.from(text, 'base64')].  [btoa] is defined on
    strings of code units below 256, here a byte string.  The decoder
    stops at the first padding character and also takes the two
    characters of the URL-safe alphabet; how it treats any other
    character is outside this model, which answers [None] there. *)

Module base64.

Definition alphabet : str :=
  ascii_codes "ABCDEFGHIJKLMNOPQRSTUVWXYZabcdefghijklmnopqrstuvwxyz0123456789+/".

Definition pad : Z := 61.

Definition char (sextet : Z) : Z := nth (Z.to_nat sextet) alphabet 0.

(** The six-bit groups of a byte string, most significant first. *)
Fixpoint sextets (bytes : Buffer) : list Z :=
  match bytes with
  | b0 :: b1 :: b2 :: rest =>
      b0 / 4 :: (b0 mod 4) * 16 + b1 / 16 :: (b1 mod 16) * 4 + b2 / 64 :: b2 mod 64
      :: sextets rest
  | [b0; b1] => [b0 / 4; (b0 mod 4) * 16 + b1 / 16; (b1 mod 16) * 4]
  | [b0] => [b0 / 4; (b0 mod 4) * 16]
  | [] => []
  end.

Definition btoa (bytes : Buffer) : str :=
  map char (sextets bytes) ++
  repeat pad ((3 - List.length bytes mod 3) mod 3).

Fixpoint index_of (c : Z) (s : str) : option Z :=
  match s with
  | [] => None
  | x :: s' => if x =? c then Some 0 else option_map Z.succ (index_of c s')
  end.

Definition value (c : Z) : option Z :=
  if c =? 45 then Some 62
  else if c =? 95 then Some 63
  else index_of c alphabet.

Fixpoint values (text : str) : option (list Z) :=
  match text with
  | [] => Some []
  | c :: rest =>
      if c =? pad then Some []
      else match value c with
           | Some v => option_map (cons v) (values rest)
           | None => None
           end
  end.

Fixpoint bytes_of (ss : list Z) : Buffer :=
  match ss with
  | s0 :: s1 :: s2 :: s3 :: rest =>
      s0 * 4 + s1 / 16 :: (s1 mod 16) * 16 + s2 / 4 :: (s2 mod 4) * 64 + s3
      :: bytes_of rest
  | [s0; s1; s2] => [s0 * 4 + s1 / 16; (s1 mod 16) * 16 + s2 / 4]
  | [s0; s1] => [s0 * 4 + s1 / 16]
  | _ => []
  end.

(** [Buffer.from(text, 'base64')] *)
Definition from (text : str) : option Buffer := option_map bytes_of (values text).

End base64.

Definition is_sextet (s : Z) : Prop := 0 <= s < 64.

(** What [computeEntropy] stores for the recorded movements, given the
    bytes [data] of their text: [btoa] of the SHA-256 digest. *)
Definition client_entropy (data : Buffer) : str := base64.btoa (SHA256.hash data).

(** ** Vocabulary of the further properties *)

(** The byte passes the rejection test of an alphabet of [m] characters. *)
Definition accepted (m : Z) (byte : Z) : bool := byte <? max m.

(** The one-unit string that an accepted byte selects. *)
Definition selects (alphabet : str) (byte : Z) : str :=
  charAt alphabet (Z.to_nat (byte mod Z.of_nat (List.length alphabet))).

(** The characters that a run of bytes yields: the accepted bytes, in
    order, each mapped to the character it selects. *)
Definition sampled (alphabet : str) (bytes : Buffer) : list str :=
  map (selects alphabet)
      (filter (accepted (Z.of_nat (List.length alphabet))) bytes).

(** The value of [expanded] after [k] re-expansions of the buffer
    [first]. *)
Definition grown (seed : Buffer) (first : Buffer) (k : nat) : Buffer :=
  first ++ List.concat (repeat (expandEntropy seed 32) k).

(** The same settings with [requireEachSelected] off. *)
Definition without_requirement (s : Settings) : Settings :=
  {| length := length s;
     includeLowercase := includeLowercase s;
     includeUppercase := includeUppercase s;
     includeNumbers := includeNumbers s;
     includeSymbols := includeSymbols s;
     includeExtendedLatin := includeExtendedLatin s;
     customCharacters := customCharacters s;
     requireEachSelected := false |}.

(** [pw] has a character of every selected category. *)
Definition covers (cs : CharacterSets) (pw : str) : Prop :=
  forall key set, In (key, set) (categories cs) -> represents pw set.

(** Every category of every character selected so far is recorded. *)
Definition complete (cs : CharacterSets) (st : Candidate) : Prop :=
  forall key set c,
    In (key, set) (categories cs) -> In [c] (chars st) -> In c set ->
    In key (present st).

(** After [n] passes from a fresh candidate over [first]: [n] bytes have
    been read, the buffer is [first] followed by as many re-expansions
    as were needed, and the characters selected are those that the bytes
    read yield. *)
Record after (seed : Buffer) (cs : CharacterSets) (first : Buffer) (n : nat)
    (st : Candidate) : Prop := {
  after_p : p st = n;
  after_grown : exists k,
    expanded st = grown seed first k /\
    (n <= List.length first + 32 * k)%nat /\
    (k = 0%nat \/ (List.length first + 32 * (k - 1) < n)%nat);
  after_chars : chars st = sampled (fullSet cs) (firstn n (expanded st))
}.

(** The loop condition [chars.length < passwordLength]. *)
Definition unfinished (L : Z) (st : Candidate) : bool :=
  Z.of_nat (List.length (chars st)) <? L.

(** * Properties *)

(** ** Conformance of the primitives with the published test vectors *)

Example sha256_empty :
  SHA256.hash [] =
  Hex.bytes "e3b0c44298fc1c149afbf4c8996fb92427ae41e4649b934ca495991b7852b855".
Proof. vm_compute. reflexivity. Qed.

Example sha256_abc :
  SHA256.hash (ascii_codes "abc") =
  Hex.bytes "ba7816bf8f01cfea414140de5dae2223b00361a396177a9cb410ff61f20015ad".
Proof. vm_compute. reflexivity. Qed.

Example sha256_two_blocks :
  SHA256.hash (ascii_codes "abcdbcdecdefdefgefghfghighijhijkijkljklmklmnlmnomnopnopq") =
  Hex.bytes "248d6a61d20638b8e5c026930c3e6039a33ce45964ff2167f6ecedd419db06c1".
Proof. vm_compute. reflexivity. Qed.

Example hmac_rfc4231_case1 :
  hmac_sha256 (repeat 0x0b 20) (ascii_codes "Hi There") =
  Hex.bytes "b0344c61d8db38535ca8afceaf0bf12b881dc200c9833da726e9376c2e32cff7".
Proof. vm_compute. reflexivity. Qed.

Example hmac_rfc4231_case2 :
  hmac_sha256 (ascii_codes "Jefe") (ascii_codes "what do ya want for nothing?") =
  Hex.bytes "5bdcc146bf60754e6a042426089575c75a003f089d2739839dec58b964ec3843".
Proof. vm_compute. reflexivity. Qed.

(** The code units of an ASCII literal. *)
Example hmac_rfc4231_case6 :
  hmac_sha256 (repeat 0xaa 131)
    (ascii_codes "Test Using Larger Than Block-Size Key - Hash Key First") =
  Hex.bytes "60e431591ee0b67f0d8a26aacbf5b77f8e0bc6213728c5140546040f0ee37f54".
Proof. vm_compute. reflexivity. Qed.




(** ** The digest is 32 bytes, each in [0,256) *)

Lemma digest_length (r : SHA256.regs) : List.length (SHA256.digest r) = 32%nat.
Proof. reflexivity. Qed.

Lemma digest_bytes (r : SHA256.regs) : Forall is_byte (SHA256.digest r).
Proof.
  unfold SHA256.digest, SHA256.be32; cbn [app].
  repeat (constructor; [apply Z.mod_pos_bound; lia|]).
  constructor.
Qed.

Lemma hmac_sha256_length (key msg : Buffer) :
  List.length (hmac_sha256 key msg) = 32%nat.
Proof. unfold hmac_sha256, SHA256.hash. apply digest_length. Qed.

Lemma hmac_sha256_bytes (key msg : Buffer) : Forall is_byte (hmac_sha256 key msg).
Proof. unfold hmac_sha256, SHA256.hash. apply digest_bytes. Qed.

Lemma block_length (entropy : Buffer) (i : nat) :
  List.length (block entropy i) = 32%nat.
Proof. apply hmac_sha256_length. Qed.

Lemma block_bytes (entropy : Buffer) (i : nat) : Forall is_byte (block entropy i).
Proof. apply hmac_sha256_bytes. Qed.

(** ** The expander *)

Lemma blocks_length (entropy : Buffer) (start n : nat) :
  List.length (flat_map (block entropy) (seq start n)) = (32 * n)%nat.
Proof.
  revert start; induction n as [|n IH]; intros start; [reflexivity|].
  cbn [seq flat_map]. rewrite length_app, block_length, IH. lia.
Qed.

Lemma expandEntropy_length (entropy : Buffer) (byteCount : nat) :
  List.length (expandEntropy entropy byteCount) = byteCount.
Proof.
  unfold expandEntropy. rewrite length_firstn, blocks_length.
  assert (byteCount <= 32 * ((byteCount + 31) / 32))%nat.
  { pose proof (Nat.div_mod_eq (byteCount + 31) 32).
    pose proof (Nat.mod_upper_bound (byteCount + 31) 32). lia. }
  lia.
Qed.

Lemma expandEntropy_bytes (entropy : Buffer) (byteCount : nat) :
  Forall is_byte (expandEntropy entropy byteCount).
Proof.
  unfold expandEntropy. apply Forall_forall. intros b Hb.
  assert (Hb' : In b (flat_map (block entropy) (seq 0 ((byteCount + 31) / 32)))).
  { rewrite <- (firstn_skipn byteCount). apply in_or_app. now left. }
  apply in_flat_map in Hb' as (i & _ & Hb').
  pose proof (block_bytes entropy i) as HF.
  rewrite Forall_forall in HF. auto.
Qed.

(** The re-expansion call [expandEntropy(entropy, 32)] is block 0. *)
Lemma expandEntropy_32 (entropy : Buffer) :
  expandEntropy entropy 32 = block entropy 0.
Proof.
  unfold expandEntropy. change ((32 + 31) / 32)%nat with 1%nat.
  cbn [seq flat_map]. rewrite app_nil_r.
  rewrite <- (block_length entropy 0) at 1. apply firstn_all.
Qed.

(** Block [i] of the output, when the output is long enough to hold it. *)
Lemma expandEntropy_block (entropy : Buffer) (byteCount i : nat) :
  (32 * (i + 1) <= byteCount)%nat ->
  firstn 32 (skipn (32 * i) (expandEntropy entropy byteCount)) = block entropy i.
Proof.
  intros Hi. unfold expandEntropy.
  set (blocks := ((byteCount + 31) / 32)%nat).
  assert (Hb : (i + 1 <= blocks)%nat).
  { subst blocks. apply Nat.div_le_lower_bound; lia. }
  replace blocks with (i + (1 + (blocks - i - 1)))%nat by lia.
  rewrite !seq_app, !flat_map_app. cbn [seq flat_map]. rewrite app_nil_r.
  rewrite skipn_firstn_comm, firstn_firstn.
  replace (Nat.min 32 (byteCount - 32 * i)) with 32%nat by lia.
  rewrite skipn_app, blocks_length, Nat.sub_diag, skipn_0.
  rewrite skipn_all2 by (rewrite blocks_length; lia).
  cbn [app]. rewrite Nat.add_0_l.
  rewrite firstn_app, block_length, Nat.sub_diag, firstn_0, app_nil_r.
  rewrite <- (block_length entropy i) at 1. apply firstn_all.
Qed.

(** The counter is one byte: it wraps after 256 blocks. *)
Lemma counter_wraps (i : nat) : counter (i + 256) = counter i.
Proof.
  unfold counter. f_equal.
  rewrite Nat2Z.inj_add. change (Z.of_nat 256) with (1 * 256).
  apply Z.mod_add. lia.
Qed.

Lemma block_wraps (entropy : Buffer) (i : nat) :
  block entropy (i + 256) = block entropy i.
Proof. unfold block. now rewrite counter_wraps. Qed.

(** Below 256 the counters of different blocks differ. *)
Lemma counter_injective (i j : nat) :
  (i < 256)%nat -> (j < 256)%nat -> counter i = counter j -> i = j.
Proof.
  unfold counter. intros Hi Hj [= H].
  rewrite !Z.mod_small in H by lia. lia.
Qed.

(** ** String primitives *)

Lemma startsWith_singleton (s : str) (c : Z) :
  startsWith s [c] = match s with [] => false | y :: _ => c =? y end.
Proof.
  destruct s as [|y s']; [reflexivity|].
  destruct s'; cbn; now rewrite andb_true_r.
Qed.

Lemma includes_singleton (s : str) (c : Z) : includes s [c] = true <-> In c s.
Proof.
  induction s as [|y s' IH].
  - cbn. split; [discriminate | contradiction].
  - cbn [includes]. rewrite startsWith_singleton, orb_true_iff, IH, Z.eqb_eq.
    cbn [In]. intuition congruence.
Qed.

Lemma charAt_in_range (s : str) (i : nat) :
  (i < List.length s)%nat -> exists c, nth_error s i = Some c /\ charAt s i = [c] /\ In c s.
Proof.
  intros Hi. unfold charAt.
  destruct (nth_error s i) as [c|] eqn:E.
  - exists c. repeat split. eapply nth_error_In; eauto.
  - apply nth_error_None in E. lia.
Qed.

(** ** The rejection threshold *)

Lemma max_multiple (m : Z) : 0 < m -> max m = m * (256 / m).
Proof. intros Hm. unfold max. rewrite Z.mod_eq by lia. lia. Qed.

Lemma max_le_256 (m : Z) : 0 < m -> 0 <= max m <= 256.
Proof.
  intros Hm. unfold max.
  pose proof (Z.mod_pos_bound 256 m Hm).
  pose proof (Z.mod_le 256 m ltac:(lia) Hm). lia.
Qed.

Lemma max_largest (m k : Z) : 0 < m -> m * k <= 256 -> m * k <= max m.
Proof.
  intros Hm Hk. rewrite max_multiple by assumption.
  apply Z.mul_le_mono_nonneg_l; [lia|].
  apply Z.div_le_lower_bound; lia.
Qed.

Lemma max_oversized (m : Z) : 256 < m -> max m = 0.
Proof. intros Hm. unfold max. rewrite Z.mod_small by lia. lia. Qed.

(** ** One pass of the inner loop *)

Section SamplerFacts.

Variable seed : Buffer.
Variable cs : CharacterSets.
Variable L : Z.
Variable req : bool.

Local Abbreviation m := (Z.of_nat (List.length (fullSet cs))).

Lemma refill_extends (st : Candidate) :
  exists ext, refill seed st = expanded st ++ ext.
Proof.
  unfold refill. destruct (_ <=? _)%nat.
  - eexists; reflexivity.
  - exists []. now rewrite app_nil_r.
Qed.

Lemma refill_in_range (st : Candidate) :
  (p st <= List.length (expanded st))%nat ->
  (p st < List.length (refill seed st))%nat.
Proof.
  intros Hp. unfold refill.
  destruct (_ <=? _)%nat eqn:E.
  - rewrite length_app, expandEntropy_length. lia.
  - apply Nat.leb_gt in E. lia.
Qed.

Lemma refill_bytes (st : Candidate) :
  Forall is_byte (expanded st) -> Forall is_byte (refill seed st).
Proof.
  intros Hb. unfold refill. destruct (_ <=? _)%nat; [|assumption].
  apply Forall_app. split; [assumption | apply expandEntropy_bytes].
Qed.

Lemma refill_reads (st : Candidate) :
  (p st <= List.length (expanded st))%nat ->
  exists byte, nth_error (refill seed st) (p st) = Some byte.
Proof.
  intros Hp. apply refill_in_range in Hp.
  destruct (nth_error (refill seed st) (p st)) as [b|] eqn:E; [eauto|].
  apply nth_error_None in E. lia.
Qed.

Lemma iteration_expanded (st : Candidate) :
  expanded (iteration seed cs st) = refill seed st.
Proof.
  unfold iteration. destruct (nth_error _ _); [destruct (_ <=? _)|]; reflexivity.
Qed.

Lemma iteration_p (st : Candidate) : p (iteration seed cs st) = S (p st).
Proof.
  unfold iteration. destruct (nth_error _ _); [destruct (_ <=? _)|]; reflexivity.
Qed.

(** A byte at or above the threshold is skipped; a byte below it
    appends the character at index [byte mod m]. *)
Lemma iteration_rejects (st : Candidate) (byte : Z) :
  nth_error (refill seed st) (p st) = Some byte ->
  max m <= byte ->
  iteration seed cs st =
  {| expanded := refill seed st; p := S (p st);
     chars := chars st; present := present st |}.
Proof.
  intros E Hb. unfold iteration. rewrite E.
  now replace (max m <=? byte) with true by (symmetry; apply Z.leb_le; lia).
Qed.

Lemma iteration_accepts (st : Candidate) (byte : Z) :
  nth_error (refill seed st) (p st) = Some byte ->
  byte < max m ->
  iteration seed cs st =
  push cs (refill seed st) (charAt (fullSet cs) (Z.to_nat (byte mod m))) st.
Proof.
  intros E Hb. unfold iteration. rewrite E.
  now replace (max m <=? byte) with false by (symmetry; apply Z.leb_gt; lia).
Qed.

Lemma in_record_categories (ch : str) (pr : list Category) (key : Category) :
  In key (record_categories cs ch pr) ->
  In key pr \/ exists set, In (key, set) (categories cs) /\ includes set ch = true.
Proof.
  unfold record_categories. generalize (categories cs) as entries.
  intros entries; revert pr.
  induction entries as [|[k set] entries IH]; intros pr H; cbn in H.
  - now left.
  - apply IH in H as [H | (set' & Hin & Hinc)].
    + destruct (includes set ch) eqn:E; cbn in H.
      * destruct H as [<- | H]; [right; exists set; cbn; auto | now left].
      * now left.
    + right. exists set'. cbn. auto.
Qed.

Hypothesis alphabet_nonempty : fullSet cs <> [].

Lemma setLength_pos : 0 < m.
Proof. destruct (fullSet cs); [congruence | cbn [List.length]; lia]. Qed.

Lemma accepted_char (byte : Z) :
  single_from (fullSet cs) (charAt (fullSet cs) (Z.to_nat (byte mod m))).
Proof.
  pose proof setLength_pos as Hm.
  pose proof (Z.mod_pos_bound byte m Hm) as Hb.
  destruct (charAt_in_range (fullSet cs) (Z.to_nat (byte mod m))) as (c & _ & Hc & Hin);
    [lia|].
  exists c. auto.
Qed.

Lemma first_char : single_from (fullSet cs) (charAt (fullSet cs) 0).
Proof.
  pose proof setLength_pos as Hm.
  destruct (charAt_in_range (fullSet cs) 0) as (c & _ & Hc & Hin); [lia|].
  exists c. auto.
Qed.

Lemma push_sound (buffer : Buffer) (ch : str) (st : Candidate) :
  sound cs st -> single_from (fullSet cs) ch ->
  (p st < List.length buffer)%nat -> Forall is_byte buffer ->
  sound cs (push cs buffer ch st).
Proof.
  intros [Hp Hb Hc Hpr] Hch Hlen Hbytes. split; cbn.
  - lia.
  - assumption.
  - apply Forall_app. split; [assumption | constructor; [assumption | constructor]].
  - intros key Hkey. apply in_record_categories in Hkey as [Hkey | (set & Hin & Hinc)].
    + destruct (Hpr key Hkey) as (set & c & H1 & H2 & H3).
      exists set, c. repeat split; auto. apply in_or_app; auto.
    + destruct Hch as (c & -> & Hc').
      apply includes_singleton in Hinc.
      exists set, c. repeat split; auto. apply in_or_app; right; cbn; auto.
Qed.

Lemma iteration_sound (st : Candidate) : sound cs st -> sound cs (iteration seed cs st).
Proof.
  intros Hs. pose proof Hs as [Hp Hb Hc Hpr].
  pose proof (refill_in_range st Hp) as Hlen.
  pose proof (refill_bytes st Hb) as Hbytes.
  unfold iteration.
  destruct (nth_error (refill seed st) (p st)) as [byte|] eqn:E.
  - destruct (max m <=? byte).
    + split; cbn; auto. 
    + apply push_sound; auto using accepted_char.
  - apply push_sound; auto using first_char.
Qed.

Lemma iteration_chars_length (st : Candidate) :
  (List.length (chars st) <= List.length (chars (iteration seed cs st))
   <= S (List.length (chars st)))%nat.
Proof.
  unfold iteration.
  destruct (nth_error _ _); [destruct (_ <=? _)|]; cbn; rewrite ?length_app; cbn; lia.
Qed.

(** ** The inner loop *)

Lemma fill_sound (fuel : nat) (st st' : Candidate) :
  fill seed cs L fuel st = Some st' ->
  sound cs st -> Z.of_nat (List.length (chars st)) <= L ->
  sound cs st' /\ Z.of_nat (List.length (chars st')) = L.
Proof.
  revert st. induction fuel as [|fuel IH]; intros st Hfill Hs Hlen; cbn [fill] in Hfill;
    destruct (Z.of_nat (List.length (chars st)) <? L) eqn:E;
    try discriminate;
    try (injection Hfill as <-; apply Z.ltb_ge in E; split; [assumption | lia]).
  apply Z.ltb_lt in E.
  apply IH in Hfill; auto using iteration_sound.
  pose proof (iteration_chars_length st). lia.
Qed.

End SamplerFacts.

Section LoopFacts.

Variable seed : Buffer.
Variable cs : CharacterSets.
Variable L : Z.
Variable req : bool.

(** More fuel does not change a finished run. *)
Lemma fill_mono (fuel fuel' : nat) (st st' : Candidate) :
  fill seed cs L fuel st = Some st' -> (fuel <= fuel')%nat ->
  fill seed cs L fuel' st = Some st'.
Proof.
  revert fuel' st. induction fuel as [|fuel IH]; intros fuel' st Hfill Hle; cbn [fill] in Hfill.
  - destruct fuel'; cbn [fill]; destruct (_ <? _); congruence.
  - destruct fuel' as [|fuel']; [lia|]. cbn [fill].
    destruct (_ <? _); [apply IH; [assumption | lia] | assumption].
Qed.

Lemma fill_agree (fuel1 fuel2 : nat) (st st1 st2 : Candidate) :
  fill seed cs L fuel1 st = Some st1 -> fill seed cs L fuel2 st = Some st2 ->
  st1 = st2.
Proof.
  intros H1 H2.
  apply (fill_mono _ (Nat.max fuel1 fuel2)) in H1; [|lia].
  apply (fill_mono _ (Nat.max fuel1 fuel2)) in H2; [|lia].
  congruence.
Qed.

Lemma attempts_mono (fuel fuel' : nat) (expanded0 : Buffer) (o : outcome str) :
  attempts seed cs L req fuel expanded0 = o -> o <> Diverged ->
  (fuel <= fuel')%nat ->
  attempts seed cs L req fuel' expanded0 = o.
Proof.
  revert fuel' expanded0.
  induction fuel as [|fuel IH]; intros fuel' expanded0 Hrun Hfin Hle.
  - cbn in Hrun. congruence.
  - destruct fuel' as [|fuel']; [lia|].
    cbn [attempts] in *.
    destruct (fill seed cs L (S fuel) (fresh expanded0)) as [st|] eqn:E;
      [|congruence].
    rewrite (fill_mono _ (S fuel') _ _ E) by lia.
    destruct (negb req); [assumption|].
    destruct (ok cs st); [assumption|].
    apply IH; [assumption | assumption | lia].
Qed.

(** The buffer only grows. *)
Lemma fill_extends (fuel : nat) (st st' : Candidate) :
  fill seed cs L fuel st = Some st' ->
  exists ext, expanded st' = expanded st ++ ext.
Proof.
  revert st. induction fuel as [|fuel IH]; intros st Hfill; cbn [fill] in Hfill;
    destruct (_ <? _); try discriminate;
    try (injection Hfill as <-; exists []; now rewrite app_nil_r).
  apply IH in Hfill as (ext & Hext).
  rewrite iteration_expanded in Hext.
  destruct (refill_extends seed st) as (ext0 & Hext0).
  exists (ext0 ++ ext). now rewrite Hext, Hext0, app_assoc.
Qed.

(** One pass over a longer buffer that agrees with the refilled one. *)
Lemma iteration_with_expanded (st : Candidate) (ext : Buffer) :
  (p st <= List.length (expanded st))%nat ->
  iteration seed cs (with_expanded (refill seed st ++ ext) st) =
  with_expanded (refill seed st ++ ext) (iteration seed cs st).
Proof.
  intros Hp. pose proof (refill_in_range seed st Hp) as Hlen.
  unfold iteration at 1.
  assert (Hre : refill seed (with_expanded (refill seed st ++ ext) st)
                = refill seed st ++ ext).
  { unfold refill at 1. cbn [with_expanded expanded p].
    rewrite length_app.
    destruct (_ <=? _)%nat eqn:E; [apply Nat.leb_le in E; lia | reflexivity]. }
  rewrite Hre. cbn [with_expanded p].
  rewrite nth_error_app1 by assumption.
  unfold iteration.
  destruct (nth_error (refill seed st) (p st)); [destruct (_ <=? _)|]; reflexivity.
Qed.

(** Running the inner loop again over its own final buffer, from the
    same loop variables, ends in the same state. *)
Lemma fill_replay (fuel : nat) (st st' : Candidate) :
  fill seed cs L fuel st = Some st' ->
  (p st <= List.length (expanded st))%nat ->
  fill seed cs L fuel (with_expanded (expanded st') st) = Some st'.
Proof.
  revert st. induction fuel as [|fuel IH]; intros st Hfill Hp; cbn [fill] in Hfill |- *;
    cbn [with_expanded chars];
    destruct (Z.of_nat (List.length (chars st)) <? L) eqn:E; try discriminate;
    try (injection Hfill as <-; now destruct st).
  pose proof (fill_extends _ _ _ Hfill) as (ext & Hext).
  rewrite iteration_expanded in Hext.
  rewrite Hext, iteration_with_expanded by assumption.
  rewrite <- Hext. apply IH; [assumption|].
  rewrite iteration_p, iteration_expanded.
  apply (refill_in_range seed) in Hp. lia.
Qed.

End LoopFacts.

(** ** The character-set builder *)

Lemma Category_eqb_eq (x y : Category) : Category_eqb x y = true <-> x = y.
Proof. destruct x, y; cbn; split; congruence. Qed.

Lemma has_In (pr : list Category) (key : Category) :
  has pr key = true <-> In key pr.
Proof.
  unfold has. rewrite existsb_exists. split.
  - intros (k & Hin & Heq). apply Category_eqb_eq in Heq. now subst.
  - intros Hin. exists key. split; [assumption | now apply Category_eqb_eq].
Qed.

Lemma truthy_nonempty (s : str) : truthy s = true <-> s <> [].
Proof. destruct s; cbn; split; congruence. Qed.

Lemma buildCharacterSets_converges (s : Settings) : buildCharacterSets s <> Diverged.
Proof. unfold buildCharacterSets. destruct (truthy _); discriminate. Qed.

Lemma buildCharacterSets_nonempty (s : Settings) (cs : CharacterSets) :
  buildCharacterSets s = Returned cs -> fullSet cs <> [].
Proof.
  unfold buildCharacterSets. destruct (truthy _) eqn:E; [|discriminate].
  intros [= <-]. now apply truthy_nonempty.
Qed.

(** The builder throws exactly when nothing is selected. *)
Lemma buildCharacterSets_thrown (s : Settings) (message : string) :
  buildCharacterSets s = Thrown message ->
  message = no_categories_message /\
  includeLowercase s = false /\ includeUppercase s = false /\
  includeNumbers s = false /\ includeSymbols s = false /\
  includeExtendedLatin s = false /\ customCharacters s = [].
Proof.
  unfold buildCharacterSets.
  destruct s as [len [|] [|] [|] [|] [|] [|c cc] re]; cbn; intros H;
    first [discriminate H | injection H as <-; repeat split].
Qed.

Lemma buildCharacterSets_none (s : Settings) :
  includeLowercase s = false -> includeUppercase s = false ->
  includeNumbers s = false -> includeSymbols s = false ->
  includeExtendedLatin s = false -> customCharacters s = [] ->
  buildCharacterSets s = Thrown no_categories_message.
Proof.
  unfold buildCharacterSets. intros -> -> -> -> -> ->. reflexivity.
Qed.

Lemma buildCharacterSets_keys (s : Settings) (cs : CharacterSets) :
  buildCharacterSets s = Returned cs -> NoDup (map fst (categories cs)).
Proof.
  unfold buildCharacterSets. destruct (truthy _); [|discriminate].
  intros [= <-].
  destruct s as [len [|] [|] [|] [|] [|] [|c cc] re]; cbn;
    repeat (constructor; [cbn; intuition discriminate|]); constructor.
Qed.

(** Every enabled flag, and a non-empty custom string, is an entry of
    [categories]. *)
Lemma buildCharacterSets_selected (s : Settings) (cs : CharacterSets) :
  buildCharacterSets s = Returned cs ->
  (includeLowercase s = true -> In (lowercase, sets.lowercase) (categories cs)) /\
  (includeUppercase s = true -> In (uppercase, sets.uppercase) (categories cs)) /\
  (includeNumbers s = true -> In (numbers, sets.numbers) (categories cs)) /\
  (includeSymbols s = true -> In (symbols, sets.symbols) (categories cs)) /\
  (includeExtendedLatin s = true ->
     In (extendedLatin, sets.extendedLatin) (categories cs)) /\
  (customCharacters s <> [] -> In (custom, customCharacters s) (categories cs)).
Proof.
  unfold buildCharacterSets. destruct (truthy _); [|discriminate].
  intros [= <-].
  destruct s as [len [|] [|] [|] [|] [|] [|c cc] re];
    cbn [includeLowercase includeUppercase includeNumbers includeSymbols
         includeExtendedLatin customCharacters select truthy categories app];
    repeat split; intros H; try discriminate H; try congruence;
    cbn [In]; auto 10.
Qed.

Lemma passwordLength_range (s : Settings) : 1 <= passwordLength s <= 2048.
Proof. unfold passwordLength. lia. Qed.

(** ** The joined candidate *)

Lemma join_length (alphabet : str) (cs : list str) :
  Forall (single_from alphabet) cs -> List.length (join cs) = List.length cs.
Proof.
  induction 1 as [|ch cs (c & -> & _) _ IH]; [reflexivity|].
  unfold join in *. cbn. now rewrite IH.
Qed.

Lemma join_alphabet (alphabet : str) (cs : list str) :
  Forall (single_from alphabet) cs -> Forall (fun c => In c alphabet) (join cs).
Proof.
  induction 1 as [|ch cs (c & -> & Hc) _ IH]; [constructor|].
  unfold join in *. cbn. now constructor.
Qed.

Lemma join_In (cs : list str) (c : Z) : In [c] cs -> In c (join cs).
Proof.
  intros H. unfold join. apply in_concat. exists [c]. cbn. auto.
Qed.

Lemma unique_entry {A B : Type} (l : list (A * B)) (k : A) (x y : B) :
  NoDup (map fst l) -> In (k, x) l -> In (k, y) l -> x = y.
Proof.
  induction l as [|[k' z] l IH]; cbn; intros Hnd Hx Hy; [contradiction|].
  inversion Hnd as [|? ? Hnotin Hnd']; subst.
  destruct Hx as [[= -> ->] | Hx], Hy as [[= <-] | Hy]; auto.
  - exfalso. apply Hnotin. apply (in_map fst) in Hy. exact Hy.
  - exfalso. apply Hnotin. apply (in_map fst) in Hx. subst. exact Hx.
Qed.

(** A candidate that passes the check has a character of every entry of
    [categories]. *)
Lemma ok_represents (cs : CharacterSets) (st : Candidate) (key : Category) (set : str) :
  sound cs st -> NoDup (map fst (categories cs)) -> ok cs st = true ->
  In (key, set) (categories cs) -> represents (join (chars st)) set.
Proof.
  intros Hs Hnd Hok Hin. unfold ok in Hok. rewrite forallb_forall in Hok.
  specialize (Hok _ Hin). cbn [fst] in Hok. apply has_In in Hok.
  destruct (sound_present _ _ Hs key Hok) as (set' & c & Hin' & Hc & Hset).
  assert (set' = set) by (eapply unique_entry; eauto). subst set'.
  exists c. split; [now apply join_In | assumption].
Qed.

(** ** The outer loop *)

Lemma fresh_sound (cs : CharacterSets) (expanded0 : Buffer) :
  Forall is_byte expanded0 -> sound cs (fresh expanded0).
Proof.
  intros Hb. split; cbn; [lia | assumption | constructor | contradiction].
Qed.

(** What a returned password comes from: a finished, sound pass that
    holds exactly [L] characters and, if coverage is required, passed
    the check. *)
Lemma attempts_returned (seed : Buffer) (cs : CharacterSets) (L : Z) (req : bool)
    (fuel : nat) (expanded0 : Buffer) (pw : str) :
  fullSet cs <> [] -> 0 <= L -> Forall is_byte expanded0 ->
  attempts seed cs L req fuel expanded0 = Returned pw ->
  exists st, sound cs st /\ Z.of_nat (List.length (chars st)) = L /\
             pw = join (chars st) /\ (req = true -> ok cs st = true).
Proof.
  intros Hne HL. revert expanded0.
  induction fuel as [|fuel IH]; intros expanded0 Hb Hrun; [discriminate|].
  cbn [attempts] in Hrun.
  destruct (fill seed cs L (S fuel) (fresh expanded0)) as [st|] eqn:E; [|discriminate].
  destruct (fill_sound seed cs L Hne _ _ _ E (fresh_sound cs _ Hb)) as [Hs Hlen];
    [cbn; lia|].
  destruct req; cbn [negb] in Hrun.
  - destruct (ok cs st) eqn:Hok.
    + injection Hrun as <-. exists st. auto.
    + apply IH in Hrun; [assumption | apply (sound_bytes _ _ Hs)].
  - injection Hrun as <-. exists st.
    split; [assumption | split; [assumption | split; [reflexivity | discriminate]]].
Qed.

Lemma generatePassword_returned (fuel : nat) (seed : Buffer) (s : Settings) (pw : str) :
  generatePassword fuel seed s = Returned pw ->
  exists cs st,
    buildCharacterSets s = Returned cs /\ sound cs st /\
    Z.of_nat (List.length (chars st)) = passwordLength s /\
    pw = join (chars st) /\
    (requireEachSelected s = true -> ok cs st = true).
Proof.
  unfold generatePassword.
  destruct (buildCharacterSets s) as [cs| |] eqn:B; try discriminate.
  intros Hrun. pose proof (passwordLength_range s).
  apply attempts_returned in Hrun as (st & H1 & H2 & H3 & H4).
  - exists cs, st. auto.
  - eapply buildCharacterSets_nonempty; eauto.
  - lia.
  - apply expandEntropy_bytes.
Qed.

(** The returned password has [passwordLength] characters, all of them
    from the alphabet. *)
Lemma generatePassword_shape (fuel : nat) (seed : Buffer) (s : Settings) (pw : str) :
  generatePassword fuel seed s = Returned pw ->
  exists cs, buildCharacterSets s = Returned cs /\
    Z.of_nat (List.length pw) = passwordLength s /\
    Forall (fun c => In c (fullSet cs)) pw.
Proof.
  intros Hrun.
  apply generatePassword_returned in Hrun as (cs & st & B & Hs & Hlen & -> & _).
  exists cs. split; [assumption | split].
  - rewrite (join_length (fullSet cs)); [assumption | apply (sound_chars _ _ Hs)].
  - apply join_alphabet, (sound_chars _ _ Hs).
Qed.

(** If the first candidate fails the coverage check, every later pass
    replays it and the function never returns. *)
Lemma attempts_stuck (seed : Buffer) (cs : CharacterSets) (L : Z)
    (fuel0 : nat) (st : Candidate) :
  ok cs st = false ->
  forall (fuel : nat) (expanded0 : Buffer),
    fill seed cs L fuel0 (fresh expanded0) = Some st ->
    attempts seed cs L true fuel expanded0 = Diverged.
Proof.
  intros Hok. induction fuel as [|fuel IH]; intros expanded0 Hfirst; [reflexivity|].
  cbn [attempts].
  destruct (fill seed cs L (S fuel) (fresh expanded0)) as [st2|] eqn:E; [|reflexivity].
  assert (st2 = st) by (eapply fill_agree; eauto). subst st2.
  cbn [negb]. rewrite Hok. apply IH.
  apply (fill_replay seed cs L fuel0 (fresh expanded0) st Hfirst). cbn. lia.
Qed.

Lemma generatePassword_stuck (seed : Buffer) (s : Settings) (cs : CharacterSets)
    (fuel0 : nat) (st : Candidate) :
  buildCharacterSets s = Returned cs ->
  requireEachSelected s = true ->
  fill seed cs (passwordLength s) fuel0 (fresh (first_expansion seed s)) = Some st ->
  ok cs st = false ->
  forall fuel, generatePassword fuel seed s = Diverged.
Proof.
  intros B Hreq Hfirst Hok fuel. unfold generatePassword. rewrite B, Hreq.
  eapply attempts_stuck; eauto.
Qed.

(** * The claims *)

(** ** Retries and the bytes they read *)

(** C1.  The claim asks that successive retry passes read pairwise
    disjoint positions of the expander output.  On the seed of 32 zero
    bytes, with the front end's default settings and coverage required,
    the first pass reads positions 0 to 16 of [expanded] and assembles a
    candidate with no digit, which fails the coverage check; the retry
    pass starts again at [p = 0] over the same buffer, reads the same
    positions and ends in the same state.  The re-expansion call, when a
    pass needs it, yields the first 32 bytes of the stream again, not a
    block with a new counter. *)
Theorem retry_rereads_consumed_bytes :
  buildCharacterSets defaults_require_each = Returned defaults_sets /\
  exists st,
    fill zero_seed defaults_sets (passwordLength defaults_require_each) 18
         (fresh (first_expansion zero_seed defaults_require_each)) = Some st /\
    join (chars st) = ascii_codes "iG\FPK{v*wb$K~YJ" /\
    has (present st) numbers = false /\
    ok defaults_sets st = false /\
    fill zero_seed defaults_sets (passwordLength defaults_require_each) 18
         (fresh (expanded st)) = Some st /\
    consumed st = seq 0 17 /\
    expandEntropy zero_seed 32 = firstn 32 (first_expansion zero_seed defaults_require_each).
Proof.
  split; [reflexivity|].
  eexists. split; [vm_compute; reflexivity|].
  split; [reflexivity|].
  split; [reflexivity|].
  split; [reflexivity|].
  split; [vm_compute; reflexivity|].
  split; [reflexivity|].
  vm_compute; reflexivity.
Qed.

(** C2, as stated, fails: with one character of lowercase and digits and
    coverage required, no amount of fuel lets [generatePassword] finish,
    with a password or with an error. *)
Lemma uncapped_retry_never_ends :
  requireEachSelected uncoverable = true /\
  forall fuel, generatePassword fuel zero_seed uncoverable = Diverged.
Proof.
  split; [reflexivity|].
  apply (generatePassword_stuck zero_seed uncoverable lower_digits_sets 1
           {| expanded := [102; 32]; p := 1;
              chars := [[52]]; present := [numbers] |});
    vm_compute; reflexivity.
Qed.

(** The loop has no exit that throws. *)
Lemma attempts_never_throws (seed : Buffer) (cs : CharacterSets) (L : Z) (req : bool)
    (fuel : nat) (expanded0 : Buffer) (message : string) :
  attempts seed cs L req fuel expanded0 <> Thrown message.
Proof.
  revert expanded0. induction fuel as [|fuel IH]; intros expanded0; [discriminate|].
  cbn [attempts].
  destruct (fill _ _ _ _ _); [|discriminate].
  destruct (negb _); [discriminate|].
  destruct (ok _ _); [discriminate | apply IH].
Qed.

(** C2, amended.  The retry loop has no cap and no failure exit.  With a
    non-empty alphabet and coverage required, [generatePassword] never
    fails with an error, and a pass whose candidate fails the coverage
    check is followed by another pass over the buffer it left, however
    many passes came before: no count of passes or of bytes is kept. *)
Theorem retry_has_no_failure_exit (seed : Buffer) (s : Settings) (cs : CharacterSets) :
  buildCharacterSets s = Returned cs ->
  requireEachSelected s = true ->
  (forall fuel message, generatePassword fuel seed s <> Thrown message) /\
  (forall fuel0 fuel expanded0 st,
     fill seed cs (passwordLength s) fuel0 (fresh expanded0) = Some st ->
     ok cs st = false ->
     (fuel0 <= S fuel)%nat ->
     attempts seed cs (passwordLength s) true (S fuel) expanded0 =
     attempts seed cs (passwordLength s) true fuel (expanded st)).
Proof.
  intros B Hreq. split.
  - intros fuel message. unfold generatePassword. rewrite B.
    apply attempts_never_throws.
  - intros fuel0 fuel expanded0 st Hfill Hok Hle.
    cbn [attempts]. rewrite (fill_mono _ _ _ _ _ _ _ Hfill Hle).
    cbn [negb]. now rewrite Hok.
Qed.

Lemma retry_has_no_failure_exit_witness :
  buildCharacterSets uncoverable = Returned lower_digits_sets /\
  requireEachSelected uncoverable = true /\
  (forall fuel message, generatePassword fuel zero_seed uncoverable <> Thrown message).
Proof.
  split; [reflexivity|]. split; [reflexivity|].
  apply (retry_has_no_failure_exit zero_seed uncoverable lower_digits_sets);
    reflexivity.
Defined.

(** ** Shape of the returned password *)

(** C3.  For every 32-byte seed and every settings with a non-empty
    alphabet and a length [n] in [[1,2048]], a password that
    [generatePassword] returns has exactly [n] characters, each of them
    occurring in the alphabet built from the settings. *)
Theorem password_length_and_alphabet (fuel : nat) (seed : Buffer) (s : Settings)
    (cs : CharacterSets) (n : Z) (pw : str) :
  List.length seed = 32%nat ->
  buildCharacterSets s = Returned cs ->
  length s = Some n -> 1 <= n <= 2048 ->
  generatePassword fuel seed s = Returned pw ->
  Z.of_nat (List.length pw) = n /\ Forall (fun c => In c (fullSet cs)) pw.
Proof.
  intros _ B Hn Hrange Hrun.
  apply generatePassword_shape in Hrun as (cs' & B' & Hlen & Hall).
  assert (cs' = cs) by congruence. subst cs'.
  split; [|assumption].
  rewrite Hlen. unfold passwordLength, or_default. rewrite Hn.
  destruct (n =? 0) eqn:E; [apply Z.eqb_eq in E|]; lia.
Qed.

Lemma password_length_and_alphabet_witness :
  generatePassword 20 zero_seed lower8 = Returned (ascii_codes "ygxfpkck") /\
  Z.of_nat (List.length (ascii_codes "ygxfpkck")) = 8 /\
  Forall (fun c => In c sets.lowercase) (ascii_codes "ygxfpkck").
Proof.
  assert (H : generatePassword 20 zero_seed lower8 = Returned (ascii_codes "ygxfpkck"))
    by (vm_compute; reflexivity).
  split; [exact H|].
  apply (password_length_and_alphabet 20 zero_seed lower8
           {| fullSet := sets.lowercase;
              categories := [(lowercase, sets.lowercase)] |} 8
           (ascii_codes "ygxfpkck"));
    [reflexivity | reflexivity | reflexivity | lia | exact H].
Defined.

(** ** Rejection sampling *)

(** C4.  With [m] the alphabet length, the threshold [256 - 256 mod m]
    is the largest multiple of [m] not exceeding 256; a pass of the
    inner loop that reads a byte at or above it selects nothing, and one
    that reads a byte [b] below it appends the character at index
    [b mod m] of the alphabet.  Either way the byte is consumed. *)
Theorem rejection_sampling (seed : Buffer) (cs : CharacterSets) (st : Candidate)
    (byte : Z) :
  fullSet cs <> [] ->
  nth_error (refill seed st) (p st) = Some byte ->
  let m := Z.of_nat (List.length (fullSet cs)) in
  (max m = 256 - 256 mod m /\ max m = m * (256 / m) /\ max m <= 256 /\
   forall k, m * k <= 256 -> m * k <= max m) /\
  p (iteration seed cs st) = S (p st) /\
  (max m <= byte -> chars (iteration seed cs st) = chars st) /\
  (byte < max m ->
   exists c, nth_error (fullSet cs) (Z.to_nat (byte mod m)) = Some c /\
             chars (iteration seed cs st) = chars st ++ [[c]]).
Proof.
  intros Hne Hread m.
  pose proof (setLength_pos cs Hne) as Hm. fold m in Hm.
  split; [|split; [|split]].
  - split; [reflexivity|]. split; [now apply max_multiple|].
    split; [apply max_le_256; assumption|].
    intros k. now apply max_largest.
  - apply iteration_p.
  - intros Hb. now rewrite (iteration_rejects seed cs st byte Hread Hb).
  - intros Hb. rewrite (iteration_accepts seed cs st byte Hread Hb).
    pose proof (Z.mod_pos_bound byte m Hm) as Hidx.
    destruct (charAt_in_range (fullSet cs) (Z.to_nat (byte mod m)))
      as (c & Hc & Hat & _); [fold m; lia|].
    exists c. split; [exact Hc|]. fold m in Hat. cbn [push chars]. fold m.
    now rewrite Hat.
Qed.

Lemma rejection_sampling_witness :
  nth_error (refill zero_seed (fresh (first_expansion zero_seed lower8))) 0 = Some 102 /\
  max 26 = 234 /\
  chars (iteration zero_seed {| fullSet := sets.lowercase; categories := [] |}
           (fresh (first_expansion zero_seed lower8))) = [ascii_codes "y"].
Proof.
  assert (H : nth_error (refill zero_seed (fresh (first_expansion zero_seed lower8))) 0
              = Some 102) by (vm_compute; reflexivity).
  split; [exact H|]. split; [reflexivity|].
  destruct (rejection_sampling zero_seed
              {| fullSet := sets.lowercase; categories := [] |}
              (fresh (first_expansion zero_seed lower8)) 102)
    as (_ & _ & _ & Hacc); [discriminate | exact H |].
  destruct Hacc as (c & Hc & Hchars); [vm_compute; reflexivity|].
  rewrite Hchars. vm_compute in Hc. injection Hc as <-. reflexivity.
Defined.

(** ** Coverage *)

Lemma lowercase_letters (c : Z) : In c sets.lowercase -> 97 <= c <= 122.
Proof.
  intros H. cbv in H.
  repeat (destruct H as [<- | H]; [lia|]). contradiction.
Qed.

Lemma numbers_digits (c : Z) : In c sets.numbers -> 48 <= c <= 57.
Proof.
  intros H. cbv in H.
  repeat (destruct H as [<- | H]; [lia|]). contradiction.
Qed.

(** C5.  With [requireEachSelected] set, a password that
    [generatePassword] returns has a character of every selected
    category: of each category whose flag is on, and of the custom
    characters when there are any.  In particular, with lowercase and
    numbers on, it has a lowercase letter and a digit. *)
Theorem returned_password_covers_categories (fuel : nat) (seed : Buffer)
    (s : Settings) (pw : str) :
  requireEachSelected s = true ->
  generatePassword fuel seed s = Returned pw ->
  ((includeLowercase s = true -> represents pw sets.lowercase) /\
   (includeUppercase s = true -> represents pw sets.uppercase) /\
   (includeNumbers s = true -> represents pw sets.numbers) /\
   (includeSymbols s = true -> represents pw sets.symbols) /\
   (includeExtendedLatin s = true -> represents pw sets.extendedLatin) /\
   (customCharacters s <> [] -> represents pw (customCharacters s))) /\
  (includeLowercase s = true -> includeNumbers s = true ->
   (exists c, In c pw /\ 97 <= c <= 122) /\ (exists c, In c pw /\ 48 <= c <= 57)).
Proof.
  intros Hreq Hrun.
  apply generatePassword_returned in Hrun as (cs & st & B & Hs & _ & -> & Hok).
  specialize (Hok Hreq).
  pose proof (buildCharacterSets_keys s cs B) as Hnd.
  pose proof (buildCharacterSets_selected s cs B) as (H1 & H2 & H3 & H4 & H5 & H6).
  assert (Hcov : forall key set, In (key, set) (categories cs) ->
                                 represents (join (chars st)) set)
    by (intros key set; now apply ok_represents).
  split.
  - repeat split; intros Hflag; eapply Hcov; eauto.
  - intros Hlow Hnum. split.
    + destruct (Hcov _ _ (H1 Hlow)) as (c & Hc & Hin).
      exists c. split; [assumption | now apply lowercase_letters].
    + destruct (Hcov _ _ (H3 Hnum)) as (c & Hc & Hin).
      exists c. split; [assumption | now apply numbers_digits].
Qed.

Lemma returned_password_covers_categories_witness :
  requireEachSelected lower_digits8 = true /\
  generatePassword 20 zero_seed lower_digits8 = Returned (ascii_codes "4695faem") /\
  (exists c, In c (ascii_codes "4695faem") /\ 97 <= c <= 122) /\
  (exists c, In c (ascii_codes "4695faem") /\ 48 <= c <= 57).
Proof.
  assert (H : generatePassword 20 zero_seed lower_digits8
              = Returned (ascii_codes "4695faem")) by (vm_compute; reflexivity).
  split; [reflexivity|]. split; [exact H|].
  apply (returned_password_covers_categories 20 zero_seed lower_digits8
           (ascii_codes "4695faem") eq_refl H); reflexivity.
Defined.

(** ** Determinism *)

(** However long each was allowed to run, two evaluations that finish
    finish alike. *)
Lemma generatePassword_fuel_independent (fuel1 fuel2 : nat) (seed : Buffer)
    (s : Settings) :
  generatePassword fuel1 seed s <> Diverged ->
  generatePassword fuel2 seed s <> Diverged ->
  generatePassword fuel1 seed s = generatePassword fuel2 seed s.
Proof.
  unfold generatePassword.
  destruct (buildCharacterSets s) as [cs|msg|]; [|reflexivity|reflexivity].
  intros H1 H2.
  rewrite <- (attempts_mono _ _ _ _ fuel1 (Nat.max fuel1 fuel2) _ _ eq_refl H1)
    by lia.
  rewrite <- (attempts_mono _ _ _ _ fuel2 (Nat.max fuel1 fuel2) _ _ eq_refl H2)
    by lia.
  reflexivity.
Qed.

(** The keys that a [for ... in] loop over [entries] leaves in
    [present], whatever the order of [entries]. *)
Lemma record_in_order_In (entries : list (Category * str)) (ch : str)
    (pr : list Category) (key : Category) :
  In key (record_in_order entries ch pr) <->
  In key pr \/ exists set, In (key, set) entries /\ includes set ch = true.
Proof.
  unfold record_in_order. revert pr.
  induction entries as [|[k set] entries IH]; intros pr; cbn [fold_left fst snd].
  - split; [now left | intros [H | (set & [] & _)]; exact H].
  - rewrite IH. split.
    + intros [H | (set' & Hin & Hinc)].
      * destruct (includes set ch) eqn:E; [|now left].
        destruct H as [<- | H]; [|now left].
        right. exists set. split; [now left | exact E].
      * right. exists set'. split; [now right | exact Hinc].
    + intros [H | (set' & [[= <- <-] | Hin] & Hinc)].
      * left. destruct (includes set ch); [now right | exact H].
      * left. rewrite Hinc. now left.
      * right. now exists set'.
Qed.

Section EvaluationFacts.

Variable enumerate : Enumeration.
Variable seed : Buffer.
Variable cs : CharacterSets.
Variable L : Z.
Variable req : bool.

Hypothesis every_key : exhaustive enumerate.

Lemma refill_agrees (store : Store) (st : Candidate) :
  agrees store st -> refill seed (locals store) = refill seed st.
Proof. intros (He & Hp & _). unfold refill. now rewrite He, Hp. Qed.

Lemma push_in_agrees (expanded1 : Buffer) (ch : str) (store : Store)
    (st : Candidate) :
  agrees store st ->
  agrees (push_in enumerate cs expanded1 ch store) (push cs expanded1 ch st).
Proof.
  intros (He & Hp & Hc & Hpr). unfold agrees, push_in, push; cbn.
  split; [reflexivity|]. split; [now rewrite Hp|]. split; [now rewrite Hc|].
  intros key. unfold record_categories. fold (record_in_order (categories cs) ch (present st)).
  rewrite !record_in_order_In, Hpr.
  split; (intros [H | (set & Hin & Hinc)]; [now left|]);
    right; exists set; (split; [|exact Hinc]).
  - apply (every_key (loops store)). exact Hin.
  - apply (every_key (loops store)). exact Hin.
Qed.

(** One pass of the inner loop changes the store as it changes the
    candidate. *)
Lemma iteration_in_agrees (store : Store) (st : Candidate) :
  agrees store st ->
  agrees (iteration_in enumerate seed cs store) (iteration seed cs st).
Proof.
  intros H. pose proof H as (He & Hp & Hc & Hpr).
  unfold iteration_in, iteration.
  rewrite (refill_agrees _ _ H), Hp.
  destruct (nth_error (refill seed st) (p st)) as [byte|].
  - destruct (max _ <=? byte).
    + unfold agrees; cbn. auto.
    + now apply push_in_agrees.
  - now apply push_in_agrees.
Qed.

(** The inner loop ends in the store when it ends on the candidate,
    after the same passes. *)
Lemma fill_in_agrees (fuel : nat) (store : Store) (st : Candidate) :
  agrees store st ->
  match fill_in enumerate seed cs L fuel store, fill seed cs L fuel st with
  | Some store', Some st' => agrees store' st'
  | None, None => True
  | _, _ => False
  end.
Proof.
  revert store st. induction fuel as [|fuel IH]; intros store st H;
    cbn [fill_in fill]; pose proof H as (_ & _ & Hc & _); rewrite Hc;
    destruct (_ <? L); try exact H; try exact I.
  apply IH. now apply iteration_in_agrees.
Qed.

Lemma ok_in_agrees (store : Store) (st : Candidate) :
  agrees store st -> ok_in enumerate cs store = ok cs st.
Proof.
  intros (_ & _ & _ & Hpr). unfold ok_in, ok.
  apply eq_true_iff_eq. rewrite !forallb_forall.
  split; intros Hall entry Hin.
  - apply has_In, Hpr, has_In, Hall.
    exact (proj2 (every_key (loops store) _ entry) Hin).
  - apply has_In, Hpr, has_In, Hall.
    exact (proj1 (every_key (loops store) _ entry) Hin).
Qed.

(** The outer loop: whatever the variables of a pass held on entry, the
    outcome is that of the loop on a new candidate over the value of
    [expanded]. *)
Lemma attempts_in_agrees (fuel : nat) (store : Store) :
  fst (attempts_in enumerate seed cs L req fuel store) =
  received (attempts seed cs L req fuel (expanded (locals store))).
Proof.
  revert store. induction fuel as [|fuel IH]; intros store; [reflexivity|].
  cbn [attempts_in attempts].
  assert (H0 : agrees (enter_pass store) (fresh (expanded (locals store)))).
  { unfold agrees, enter_pass; cbn. tauto. }
  pose proof (fill_in_agrees (S fuel) _ _ H0) as H.
  destruct (fill_in enumerate seed cs L (S fuel) (enter_pass store)) as [filled|],
           (fill seed cs L (S fuel) (fresh (expanded (locals store)))) as [st|];
    try contradiction; [|reflexivity].
  assert (Ha : agrees (assign_result filled) st) by exact H.
  destruct H as (He & _ & Hc & _).
  destruct req; cbn [negb].
  - rewrite (ok_in_agrees _ _ Ha). destruct (ok cs st).
    + unfold return_result, after_check, assign_result; cbn. now rewrite Hc.
    + rewrite IH. unfold after_check, assign_result; cbn. now rewrite He.
  - unfold return_result, assign_result; cbn. now rewrite Hc.
Qed.

End EvaluationFacts.

(** An evaluation over the store is the function, whatever the store
    held and whatever order the engine chose. *)
Lemma evaluate_is_generatePassword (enumerate : Enumeration) (fuel : nat)
    (seed : Buffer) (s : Settings) (store : Store) :
  exhaustive enumerate ->
  fst (evaluate enumerate fuel seed s store) =
  received (generatePassword fuel seed s).
Proof.
  intros Hen. unfold evaluate, generatePassword.
  destruct (buildCharacterSets s) as [cs|msg|]; [|reflexivity|reflexivity].
  now rewrite attempts_in_agrees.
Qed.

Lemma received_injective (o1 o2 : outcome str) :
  received o1 = received o2 -> o1 = o2.
Proof. destruct o1, o2; cbn; congruence. Qed.

(** C6.  Two evaluations of [generatePassword] on the same seed and
    settings that finish return the same password (or throw the same
    error), and it is the password of the function: this holds whatever
    the variables of either evaluation held on entry, in particular what
    an earlier evaluation left in them, whatever order the engine
    enumerates the selected categories in at each [for ... in] loop of
    either evaluation, and however long each was allowed to run.  The
    value returned is never [undefined]. *)
Theorem evaluations_agree (enumerate1 enumerate2 : Enumeration)
    (store1 store2 : Store) (fuel1 fuel2 : nat) (seed : Buffer) (s : Settings) :
  exhaustive enumerate1 -> exhaustive enumerate2 ->
  fst (evaluate enumerate1 fuel1 seed s store1) <> Diverged ->
  fst (evaluate enumerate2 fuel2 seed s store2) <> Diverged ->
  fst (evaluate enumerate1 fuel1 seed s store1) =
    fst (evaluate enumerate2 fuel2 seed s store2) /\
  fst (evaluate enumerate1 fuel1 seed s store1) =
    received (generatePassword fuel1 seed s) /\
  fst (evaluate enumerate1 fuel1 seed s store1) <> Returned None.
Proof.
  intros Hen1 Hen2.
  rewrite (evaluate_is_generatePassword enumerate1 fuel1 seed s store1 Hen1).
  rewrite (evaluate_is_generatePassword enumerate2 fuel2 seed s store2 Hen2).
  intros H1 H2. split; [|split; [reflexivity|]].
  - f_equal. apply generatePassword_fuel_independent.
    + intros E. apply H1. now rewrite E.
    + intros E. apply H2. now rewrite E.
  - destruct (generatePassword fuel1 seed s); cbn; discriminate.
Qed.

Lemma insertion_order_exhaustive : exhaustive insertion_order.
Proof. intros n entries entry. reflexivity. Qed.

Lemma alternating_order_exhaustive : exhaustive alternating_order.
Proof.
  intros n entries entry. unfold alternating_order.
  destruct (Nat.even n); [symmetry; apply in_rev | reflexivity].
Qed.

(** A second evaluation, run in the store that a first one left, by an
    engine that enumerates in another order, and given another budget. *)
Lemma evaluations_agree_witness :
  let first := evaluate insertion_order 9 zero_seed lower_digits8 leftovers in
  let second := evaluate alternating_order 64 zero_seed lower_digits8 (snd first) in
  snd first <> leftovers /\
  fst first = fst second /\
  fst first = received (generatePassword 9 zero_seed lower_digits8) /\
  fst first <> Returned None.
Proof.
  cbv zeta.
  assert (H1 : fst (evaluate insertion_order 9 zero_seed lower_digits8 leftovers)
               <> Diverged) by (vm_compute; discriminate).
  assert (H2 : fst (evaluate alternating_order 64 zero_seed lower_digits8
                      (snd (evaluate insertion_order 9 zero_seed lower_digits8
                              leftovers)))
               <> Diverged) by (vm_compute; discriminate).
  split; [vm_compute; discriminate|].
  exact (evaluations_agree insertion_order alternating_order leftovers _ 9 64
           zero_seed lower_digits8 insertion_order_exhaustive
           alternating_order_exhaustive H1 H2).
Defined.

(** ** An alphabet of more than 256 characters *)

Lemma barren_fresh (expanded0 : Buffer) :
  Forall is_byte expanded0 -> barren (fresh expanded0).
Proof. intros H. repeat split; cbn; [lia | assumption]. Qed.

Lemma barren_iteration (seed : Buffer) (cs : CharacterSets) (st : Candidate) :
  256 < Z.of_nat (List.length (fullSet cs)) ->
  barren st -> barren (iteration seed cs st).
Proof.
  intros Hbig (Hc & Hp & Hb).
  destruct (refill_reads seed st Hp) as (byte & Hread).
  assert (Hbyte : is_byte byte).
  { pose proof (refill_bytes seed st Hb) as HF. rewrite Forall_forall in HF.
    apply HF. eapply nth_error_In; eauto. }
  rewrite (iteration_rejects seed cs st byte Hread)
    by (rewrite max_oversized by assumption; apply Hbyte).
  repeat split; cbn.
  - assumption.
  - apply (refill_in_range seed) in Hp. lia.
  - now apply refill_bytes.
Qed.

Lemma barren_iter (seed : Buffer) (cs : CharacterSets) (n : nat) (st : Candidate) :
  256 < Z.of_nat (List.length (fullSet cs)) ->
  barren st -> barren (Nat.iter n (iteration seed cs) st).
Proof. intros Hbig H. induction n; cbn; auto using barren_iteration. Qed.

Lemma barren_fill (seed : Buffer) (cs : CharacterSets) (L : Z) (fuel : nat)
    (st : Candidate) :
  256 < Z.of_nat (List.length (fullSet cs)) -> 1 <= L ->
  barren st -> fill seed cs L fuel st = None.
Proof.
  intros Hbig HL. revert st.
  induction fuel as [|fuel IH]; intros st H; cbn [fill];
    pose proof H as (Hc & _); rewrite Hc; cbn [List.length];
    replace (Z.of_nat 0 <? L) with true by (symmetry; apply Z.ltb_lt; lia).
  - reflexivity.
  - now apply IH, barren_iteration.
Qed.

(** C7.  When the alphabet has more than 256 characters the rejection
    threshold is 0, every byte read is discarded, no character is ever
    selected, and [generatePassword] does not terminate, whatever the
    seed. *)
Theorem oversized_alphabet_diverges (seed : Buffer) (s : Settings) (cs : CharacterSets) :
  buildCharacterSets s = Returned cs ->
  256 < Z.of_nat (List.length (fullSet cs)) ->
  max (Z.of_nat (List.length (fullSet cs))) = 0 /\
  (forall n,
     chars (Nat.iter n (iteration seed cs) (fresh (first_expansion seed s))) = []) /\
  (forall fuel, generatePassword fuel seed s = Diverged).
Proof.
  intros B Hbig.
  assert (Hfresh : barren (fresh (first_expansion seed s)))
    by (apply barren_fresh; unfold first_expansion; apply expandEntropy_bytes).
  split; [now apply max_oversized|]. split.
  - intros n. now destruct (barren_iter seed cs n _ Hbig Hfresh) as (Hc & _).
  - intros fuel. unfold generatePassword. rewrite B.
    pose proof (passwordLength_range s) as HL.
    destruct fuel as [|fuel]; [reflexivity|]. cbn [attempts].
    fold (first_expansion seed s).
    rewrite (barren_fill seed cs (passwordLength s) (S fuel) _ Hbig);
      [reflexivity | lia | exact Hfresh].
Qed.

Lemma oversized_alphabet_diverges_witness :
  buildCharacterSets oversized = Returned oversized_sets /\
  Z.of_nat (List.length (fullSet oversized_sets)) = 257 /\
  (forall fuel, generatePassword fuel zero_seed oversized = Diverged).
Proof.
  split; [reflexivity|]. split; [reflexivity|].
  apply (oversized_alphabet_diverges zero_seed oversized oversized_sets);
    [reflexivity | vm_compute; reflexivity].
Defined.

(** ** The one-byte block counter *)

Lemma expandEntropy_aliasing (seed : Buffer) (byteCount i : nat) :
  (32 * (i + 256 + 1) <= byteCount)%nat ->
  firstn 32 (skipn (32 * (i + 256)) (expandEntropy seed byteCount)) =
  firstn 32 (skipn (32 * i) (expandEntropy seed byteCount)).
Proof.
  intros H. rewrite !expandEntropy_block by lia. apply block_wraps.
Qed.

Lemma expandEntropy_block_256 (seed : Buffer) :
  firstn 32 (skipn (32 * 256) (expandEntropy seed (32 * 257))) =
  firstn 32 (expandEntropy seed (32 * 257)).
Proof.
  pose proof (expandEntropy_block seed (32 * 257) 0) as H0.
  rewrite Nat.mul_0_r, skipn_0 in H0. rewrite H0 by lia.
  rewrite (expandEntropy_block seed (32 * 257) 256) by lia.
  apply (block_wraps seed 0).
Qed.

Lemma blocks_of_request (s : Settings) (byteCount : nat) :
  In byteCount (requested s) -> (blocks byteCount <= 128)%nat.
Proof.
  intros Hin. pose proof (passwordLength_range s) as HL.
  assert (Hle : (byteCount + 31 <= 4096 + 31)%nat).
  { destruct Hin as [<- | [<- | []]]; lia. }
  unfold blocks. apply (Nat.Div0.div_le_mono _ _ 32) in Hle.
  exact Hle.
Qed.

Lemma blocks_below_wrap (seed : Buffer) (n : nat) :
  (n <= 256)%nat ->
  flat_map (block seed) (seq 0 n) =
  flat_map (fun i => hmac_sha256 seed [Z.of_nat i]) (seq 0 n).
Proof.
  intros Hn. rewrite !flat_map_concat_map. f_equal.
  apply map_ext_in. intros i Hi. apply in_seq in Hi.
  unfold block, counter. now rewrite Z.mod_small by lia.
Qed.

(** C8, as stated, fails: asked for 8224 bytes (257 blocks) on the
    seed of 32 zero bytes, [expandEntropy] keys block 256 with the
    counter of block 0, and the last 32 bytes of its output repeat the
    first 32. *)
Lemma block_256_repeats_block_0 :
  blocks (32 * 257) = 257%nat /\
  counter 256 = counter 0 /\
  firstn 32 (skipn (32 * 256) (expandEntropy zero_seed (32 * 257))) =
  firstn 32 (expandEntropy zero_seed (32 * 257)).
Proof.
  split; [reflexivity|]. split; [reflexivity|].
  apply expandEntropy_block_256.
Qed.

(** C8, amended.  [expandEntropy] encodes the block index in one byte,
    so the counter of block [i + 256] is that of block [i] and, in an
    output of more than 8192 bytes, block [i + 256] repeats block [i].
    No call that the program makes reaches this: a byte count that
    [generatePassword] passes needs at most 128 blocks, block [i] of
    the output is the HMAC of the single byte [i], and the counters of
    its blocks are pairwise distinct. *)
Theorem counter_wrap_is_beyond_every_request (seed : Buffer) (s : Settings)
    (byteCount : nat) :
  In byteCount (requested s) ->
  ((blocks byteCount <= 128)%nat /\
   expandEntropy seed byteCount =
     firstn byteCount
       (flat_map (fun i => hmac_sha256 seed [Z.of_nat i])
                 (seq 0 (blocks byteCount))) /\
   (forall i j, (i < blocks byteCount)%nat -> (j < blocks byteCount)%nat ->
                counter i = counter j -> i = j)) /\
  (forall i, counter (i + 256) = counter i /\
             block seed (i + 256) = block seed i) /\
  (forall n i, (32 * (i + 257) <= n)%nat ->
     firstn 32 (skipn (32 * (i + 256)) (expandEntropy seed n)) =
     firstn 32 (skipn (32 * i) (expandEntropy seed n))).
Proof.
  intros Hin. pose proof (blocks_of_request s byteCount Hin) as Hb.
  split; [split; [exact Hb | split]|split].
  - unfold expandEntropy. fold (blocks byteCount).
    rewrite blocks_below_wrap by lia. reflexivity.
  - intros i j Hi Hj. apply counter_injective; lia.
  - intros i. split; [apply counter_wraps | apply block_wraps].
  - intros n i Hn. apply expandEntropy_aliasing. lia.
Qed.

Lemma counter_wrap_is_beyond_every_request_witness :
  In 4096%nat (requested too_long) /\
  (blocks 4096 <= 128)%nat /\
  expandEntropy zero_seed 4096 =
    firstn 4096
      (flat_map (fun i => hmac_sha256 zero_seed [Z.of_nat i]) (seq 0 (blocks 4096))).
Proof.
  assert (Hin : In 4096%nat (requested too_long)) by (left; reflexivity).
  split; [exact Hin|].
  destruct (counter_wrap_is_beyond_every_request zero_seed too_long 4096 Hin)
    as ((Hb & Hout & _) & _).
  split; [exact Hb | exact Hout].
Defined.

(** ** The length actually used *)

(** C9, as stated, fails at the requested length 0: [settings.length || 16]
    takes 0 for an absent length, so the password has 16 characters,
    not 1. *)
Lemma zero_length_gives_sixteen :
  length zero_length = Some 0 /\
  generatePassword 20 zero_seed zero_length = Returned (ascii_codes "ygxfpkckvtmrnapy") /\
  List.length (ascii_codes "ygxfpkckvtmrnapy") = 16%nat.
Proof.
  split; [reflexivity|]. split; [vm_compute; reflexivity | reflexivity].
Qed.

(** C9, amended.  The length used is 16 when the requested length is 0
    or absent, and otherwise the requested length clamped into
    [[1,2048]]: a returned password has 2048 characters for a request
    above 2048, one character for a request below 0, and for a request
    of 1 it is a single character of the alphabet. *)
Theorem password_length_clamped (fuel : nat) (seed : Buffer) (s : Settings) (pw : str) :
  generatePassword fuel seed s = Returned pw ->
  (forall n, length s = Some n -> n <> 0 ->
             Z.of_nat (List.length pw) = clamp 1 2048 n) /\
  (length s = Some 0 \/ length s = None -> List.length pw = 16%nat) /\
  (forall n, length s = Some n -> 2048 < n -> List.length pw = 2048%nat) /\
  (forall n, length s = Some n -> n < 0 -> List.length pw = 1%nat) /\
  (length s = Some 1 -> exists c, pw = [c] /\ In c (alphabet s)).
Proof.
  intros Hrun.
  apply generatePassword_shape in Hrun as (cs & B & Hlen & Hall).
  unfold passwordLength, or_default in Hlen.
  repeat split.
  - intros n Hn Hnz. rewrite Hn in Hlen.
    apply Z.eqb_neq in Hnz. rewrite Hnz in Hlen. exact Hlen.
  - intros [Hn | Hn]; rewrite Hn in Hlen; cbn in Hlen; lia.
  - intros n Hn Hbig. rewrite Hn in Hlen.
    destruct (n =? 0) eqn:E; [apply Z.eqb_eq in E|]; lia.
  - intros n Hn Hneg. rewrite Hn in Hlen.
    destruct (n =? 0) eqn:E; [apply Z.eqb_eq in E|]; lia.
  - intros Hn. rewrite Hn in Hlen. cbn in Hlen.
    destruct pw as [|c [|c' pw]]; cbn [List.length] in Hlen; try lia.
    exists c. split; [reflexivity|].
    unfold alphabet. rewrite B. now inversion Hall.
Qed.

Lemma password_length_clamped_witness :
  generatePassword 3000 zero_seed too_long = Returned too_long_password /\
  length too_long = Some 5000 /\
  List.length too_long_password = 2048%nat.
Proof.
  assert (H : generatePassword 3000 zero_seed too_long = Returned too_long_password)
    by (vm_compute; reflexivity).
  split; [exact H|]. split; [reflexivity|].
  apply (password_length_clamped 3000 zero_seed too_long too_long_password H) with 5000;
    [reflexivity | lia].
Defined.

(** ** Nothing selected *)

(** C10.  When all five flags are off and there are no custom
    characters, [buildCharacterSets] throws, so [generatePassword]
    throws the same error for every seed, before the sampling loops are
    entered (it does so with no fuel at all), and the [/generate]
    handler answers 400 with the error message: no password, empty or
    not, is returned. *)
Theorem nothing_selected_is_an_error (fuel : nat) (seed : Buffer) (s : Settings) :
  includeLowercase s = false -> includeUppercase s = false ->
  includeNumbers s = false -> includeSymbols s = false ->
  includeExtendedLatin s = false -> customCharacters s = [] ->
  buildCharacterSets s = Thrown no_categories_message /\
  generatePassword fuel seed s = Thrown no_categories_message /\
  generatePassword 0 seed s = Thrown no_categories_message /\
  (List.length seed = 32%nat ->
   on_end fuel (Some {| entropy := Some seed; settings := Some s |}) =
   Some {| status := 400; body := error no_categories_message |}) /\
  (forall sent, exists message,
     on_end fuel (Some {| entropy := sent; settings := Some s |}) =
     Some {| status := 400; body := error message |}).
Proof.
  intros H1 H2 H3 H4 H5 H6.
  pose proof (buildCharacterSets_none s H1 H2 H3 H4 H5 H6) as B.
  assert (G : forall f e, generatePassword f e s = Thrown no_categories_message)
    by (intros f e; unfold generatePassword; now rewrite B).
  split; [exact B|]. split; [apply G|]. split; [apply G|]. split.
  - intros Hseed. unfold on_end, try_block.
    rewrite Hseed, Nat.eqb_refl. cbn [negb]. now rewrite G.
  - intros [e|]; unfold on_end, try_block.
    + destruct (negb _); [|rewrite G]; eexists; reflexivity.
    + eexists; reflexivity.
Qed.

Lemma nothing_selected_is_an_error_witness :
  generatePassword 7 zero_seed nothing_selected = Thrown no_categories_message /\
  on_end 7 (Some {| entropy := Some zero_seed; settings := Some nothing_selected |}) =
  Some {| status := 400; body := error no_categories_message |}.
Proof.
  destruct (nothing_selected_is_an_error 7 zero_seed nothing_selected
              eq_refl eq_refl eq_refl eq_refl eq_refl eq_refl)
    as (_ & Hgen & _ & Hresp & _).
  split; [exact Hgen | apply Hresp; reflexivity].
Defined.

(** * Further properties of the code *)

Arguments expandEntropy : simpl never.
Arguments hmac_sha256 : simpl never.

(** ** The expander *)

(** X1.  [expandEntropy] returns exactly [byteCount] bytes, each in
    [[0,256)], whatever the key. *)
Theorem expandEntropy_size_and_range (seed : Buffer) (byteCount : nat) :
  List.length (expandEntropy seed byteCount) = byteCount /\
  Forall is_byte (expandEntropy seed byteCount).
Proof. split; [apply expandEntropy_length | apply expandEntropy_bytes]. Qed.

Lemma blocks_split (seed : Buffer) (n k : nat) :
  flat_map (block seed) (seq 0 (n + k)) =
  flat_map (block seed) (seq 0 n) ++ flat_map (block seed) (seq n k).
Proof. now rewrite seq_app, flat_map_app. Qed.

(** X2.  A shorter expansion is a prefix of a longer one: the bytes
    already produced do not depend on how many are asked for. *)
Theorem expandEntropy_prefix_stable (seed : Buffer) (n n' : nat) :
  (n <= n')%nat ->
  expandEntropy seed n = firstn n (expandEntropy seed n').
Proof.
  intros Hle. unfold expandEntropy.
  set (b := ((n + 31) / 32)%nat). set (b' := ((n' + 31) / 32)%nat).
  assert (Hb : (b <= b')%nat) by (apply Nat.Div0.div_le_mono; lia).
  assert (Hn : (n <= 32 * b)%nat).
  { subst b. pose proof (Nat.div_mod_eq (n + 31) 32).
    pose proof (Nat.mod_upper_bound (n + 31) 32). lia. }
  rewrite firstn_firstn. replace (Nat.min n n') with n by lia.
  replace b' with (b + (b' - b))%nat by lia.
  rewrite blocks_split, firstn_app, blocks_length.
  replace (n - 32 * b)%nat with 0%nat by lia.
  now rewrite firstn_0, app_nil_r.
Qed.

Lemma expandEntropy_prefix_stable_witness :
  expandEntropy zero_seed 32 = firstn 32 (expandEntropy zero_seed 4096).
Proof. apply (expandEntropy_prefix_stable zero_seed 32 4096). lia. Defined.

(** X3.  Up to 8192 bytes the counter does not wrap: block [i] of the
    output is the HMAC of the single byte [i] under the key, and the
    counters of any two different blocks differ. *)
Theorem expandEntropy_blocks_below_wrap (seed : Buffer) (byteCount i : nat) :
  (32 * (i + 1) <= byteCount)%nat -> (byteCount <= 32 * 256)%nat ->
  firstn 32 (skipn (32 * i) (expandEntropy seed byteCount)) =
    hmac_sha256 seed [Z.of_nat i] /\
  (forall j, (32 * (j + 1) <= byteCount)%nat -> counter i = counter j -> i = j).
Proof.
  intros Hi Hn. split.
  - rewrite expandEntropy_block by assumption.
    unfold block, counter. now rewrite Z.mod_small by lia.
  - intros j Hj. apply counter_injective; lia.
Qed.

Lemma expandEntropy_blocks_below_wrap_witness :
  firstn 32 (skipn (32 * 127) (expandEntropy zero_seed 4096)) =
  hmac_sha256 zero_seed [127].
Proof.
  apply (expandEntropy_blocks_below_wrap zero_seed 4096 127); lia.
Defined.

(** ** The character-set builder *)

(** X4.  [buildCharacterSets] throws exactly when no flag is on and
    there are no custom characters; it throws nothing else. *)
Theorem buildCharacterSets_throws_iff (s : Settings) :
  (buildCharacterSets s = Thrown no_categories_message <->
   includeLowercase s = false /\ includeUppercase s = false /\
   includeNumbers s = false /\ includeSymbols s = false /\
   includeExtendedLatin s = false /\ customCharacters s = []) /\
  (forall message, buildCharacterSets s = Thrown message ->
                   message = no_categories_message).
Proof.
  split; [split|].
  - intros H. now apply buildCharacterSets_thrown in H as (_ & H).
  - intros (H1 & H2 & H3 & H4 & H5 & H6). now apply buildCharacterSets_none.
  - intros message H. now apply buildCharacterSets_thrown in H as (-> & _).
Qed.

Lemma select_concat (flag : bool) (key : Category) (chars : str) (acc : CharacterSets) :
  fullSet acc = List.concat (map snd (categories acc)) ->
  fullSet (select flag key chars acc) =
  List.concat (map snd (categories (select flag key chars acc))).
Proof.
  intros H. unfold select. destruct flag; [|assumption].
  cbn [fullSet categories]. rewrite map_app, concat_app, H. cbn.
  now rewrite app_nil_r.
Qed.

Lemma fullSet_concat (s : Settings) (cs : CharacterSets) :
  buildCharacterSets s = Returned cs ->
  fullSet cs = List.concat (map snd (categories cs)).
Proof.
  intros B. unfold buildCharacterSets in B. destruct (truthy _); [|discriminate].
  injection B as <-. repeat apply select_concat. reflexivity.
Qed.

(** X5.  The alphabet is the concatenation of the strings of the
    selected categories, in the order lowercase, uppercase, numbers,
    symbols, extended Latin, custom; so every character of the alphabet
    belongs to a selected category and every character of a selected
    category is in the alphabet. *)
Theorem alphabet_is_concatenation (s : Settings) (cs : CharacterSets) :
  buildCharacterSets s = Returned cs ->
  fullSet cs = List.concat (map snd (categories cs)) /\
  (forall c, In c (fullSet cs) <->
             exists key set, In (key, set) (categories cs) /\ In c set) /\
  map fst (categories cs) =
  filter (has (map fst (categories cs)))
         [lowercase; uppercase; numbers; symbols; extendedLatin; custom].
Proof.
  intros B.
  pose proof (fullSet_concat s cs B) as Hcat.
  split; [exact Hcat|]. split.
  - intros c. rewrite Hcat, in_concat. split.
    + intros (set & Hset & Hc). apply in_map_iff in Hset as ([key set'] & <- & Hin).
      exists key, set'. auto.
    + intros (key & set & Hin & Hc). exists set. split; [|assumption].
      apply in_map_iff. exists (key, set). auto.
  - unfold buildCharacterSets in B. destruct (truthy _); [|discriminate].
    injection B as <-.
    destruct s as [len [|] [|] [|] [|] [|] [|c cc] re]; reflexivity.
Qed.

Lemma NoDup_by_computation (l : list Z) : nodup Z.eq_dec l = l -> NoDup l.
Proof. intros <-. apply NoDup_nodup. Qed.

Lemma max_above_half (m : Z) : 0 < m <= 256 -> 128 < max m.
Proof.
  intros Hm. unfold max.
  pose proof (Z.div_mod 256 m ltac:(lia)) as Hdm.
  pose proof (Z.mod_pos_bound 256 m ltac:(lia)) as Hr.
  assert (1 <= 256 / m) by (apply Z.div_le_lower_bound; lia).
  nia.
Qed.

Lemma standard_fullSet (s : Settings) (cs : CharacterSets) :
  customCharacters s = [] ->
  buildCharacterSets s = Returned cs ->
  NoDup (fullSet cs) /\ (List.length (fullSet cs) <= 190)%nat.
Proof.
  intros Hcustom B. unfold buildCharacterSets in B.
  destruct (truthy _) eqn:E; [|discriminate]. injection B as <-.
  destruct s as [len [|] [|] [|] [|] [|] cc re]; cbn in Hcustom; subst cc;
    try discriminate E;
    (split; [apply NoDup_by_computation | apply Nat.leb_le]; vm_compute; reflexivity).
Qed.

(** X6.  Without custom characters no character occurs twice in the
    alphabet, the alphabet has at most 190 characters, and the
    rejection threshold is above 128, so more than half of the byte
    values are accepted: the five standard categories are pairwise
    disjoint. *)
Theorem standard_alphabet_distinct (s : Settings) (cs : CharacterSets) :
  customCharacters s = [] ->
  buildCharacterSets s = Returned cs ->
  NoDup (fullSet cs) /\
  (List.length (fullSet cs) <= 190)%nat /\
  128 < max (Z.of_nat (List.length (fullSet cs))).
Proof.
  intros Hcustom B.
  pose proof (buildCharacterSets_nonempty s cs B) as Hne.
  pose proof (standard_fullSet s cs Hcustom B) as H.
  destruct H as [Hnd Hlen]. split; [exact Hnd|]. split; [exact Hlen|].
  apply max_above_half. pose proof (setLength_pos cs Hne). lia.
Qed.

Lemma standard_alphabet_distinct_witness :
  NoDup (fullSet defaults_sets) /\
  (List.length (fullSet defaults_sets) <= 190)%nat /\
  128 < max (Z.of_nat (List.length (fullSet defaults_sets))).
Proof.
  apply (standard_alphabet_distinct defaults_require_each defaults_sets);
    reflexivity.
Defined.

(** ** The inner loop as an iteration *)

Lemma firstn_succ_nth_error {A : Type} (l : list A) (n : nat) (x : A) :
  nth_error l n = Some x -> firstn (S n) l = firstn n l ++ [x].
Proof.
  revert n. induction l as [|y l IH]; intros [|n] H; cbn in *; try discriminate.
  - now injection H as ->.
  - now rewrite (IH n H).
Qed.

Lemma filter_firstn_prefix {A : Type} (f : A -> bool) (l : list A) (n : nat) :
  filter f l = filter f (firstn n l) ++ filter f (skipn n l).
Proof. now rewrite <- filter_app, firstn_skipn. Qed.

Lemma fill_iter (seed : Buffer) (cs : CharacterSets) (L : Z) (fuel : nat)
    (st st' : Candidate) :
  fill seed cs L fuel st = Some st' ->
  exists j, (j <= fuel)%nat /\
            st' = Nat.iter j (iteration seed cs) st /\
            unfinished L st' = false /\
            forall i, (i < j)%nat ->
                      unfinished L (Nat.iter i (iteration seed cs) st) = true.
Proof.
  revert st. induction fuel as [|fuel IH]; intros st Hfill; cbn [fill] in Hfill;
    fold (unfinished L st) in Hfill; destruct (unfinished L st) eqn:E;
    try discriminate;
    try (injection Hfill as <-; exists 0%nat; repeat split; [lia | assumption | lia]).
  apply IH in Hfill as (j & Hj & -> & Hdone & Hbefore).
  exists (S j). split; [lia|]. split; [now rewrite Nat.iter_succ_r|].
  split; [exact Hdone|].
  intros [|i] Hi; [exact E|]. rewrite Nat.iter_succ_r. apply Hbefore. lia.
Qed.

Lemma fill_reaches (seed : Buffer) (cs : CharacterSets) (L : Z) (fuel j : nat)
    (st : Candidate) :
  (j <= fuel)%nat ->
  unfinished L (Nat.iter j (iteration seed cs) st) = false ->
  exists st', fill seed cs L fuel st = Some st'.
Proof.
  revert j st. induction fuel as [|fuel IH]; intros j st Hj Hdone; cbn [fill];
    fold (unfinished L st); destruct (unfinished L st) eqn:E; eauto.
  - replace j with 0%nat in Hdone by lia. cbn in Hdone. congruence.
  - destruct j as [|j]; [cbn in Hdone; congruence|].
    rewrite Nat.iter_succ_r in Hdone. apply (IH j); [lia | assumption].
Qed.

Lemma fill_never (seed : Buffer) (cs : CharacterSets) (L : Z) (fuel : nat)
    (st : Candidate) :
  (forall j, unfinished L (Nat.iter j (iteration seed cs) st) = true) ->
  fill seed cs L fuel st = None.
Proof.
  intros Hall. destruct (fill seed cs L fuel st) as [st'|] eqn:E; [|reflexivity].
  apply fill_iter in E as (j & _ & -> & Hdone & _). rewrite Hall in Hdone.
  discriminate.
Qed.

(** ** The buffer and the candidate after [n] passes of the inner loop *)

Lemma grown_succ (seed first : Buffer) (k : nat) :
  grown seed first (S k) = grown seed first k ++ expandEntropy seed 32.
Proof.
  unfold grown. rewrite <- app_assoc. f_equal.
  replace (S k) with (k + 1)%nat by lia.
  rewrite repeat_app, concat_app. cbn [repeat].
  now rewrite concat_cons, concat_nil, app_nil_r.
Qed.

Lemma grown_length (seed first : Buffer) (k : nat) :
  List.length (grown seed first k) = (List.length first + 32 * k)%nat.
Proof.
  induction k as [|k IH].
  - unfold grown. cbn [repeat]. rewrite concat_nil, app_nil_r. lia.
  - rewrite grown_succ, length_app, IH, expandEntropy_length. lia.
Qed.

Lemma grown_add (seed first : Buffer) (k d : nat) :
  grown seed first (k + d) =
  grown seed first k ++ List.concat (repeat (expandEntropy seed 32) d).
Proof.
  unfold grown. now rewrite repeat_app, concat_app, app_assoc.
Qed.

Lemma grown_firstn (seed first : Buffer) (n k k' : nat) :
  (n <= List.length first + 32 * k)%nat -> (k <= k')%nat ->
  firstn n (grown seed first k') = firstn n (grown seed first k).
Proof.
  intros Hn Hk. replace k' with (k + (k' - k))%nat by lia.
  rewrite grown_add, firstn_app, grown_length.
  replace (n - (List.length first + 32 * k))%nat with 0%nat by lia.
  now rewrite firstn_0, app_nil_r.
Qed.

Lemma sampled_app (alphabet : str) (l l' : Buffer) :
  sampled alphabet (l ++ l') = sampled alphabet l ++ sampled alphabet l'.
Proof. unfold sampled. now rewrite filter_app, map_app. Qed.

Lemma sampled_single (alphabet : str) (byte : Z) :
  sampled alphabet [byte] =
  if max (Z.of_nat (List.length alphabet)) <=? byte then []
  else [selects alphabet byte].
Proof.
  unfold sampled, accepted. cbn [filter].
  rewrite Z.ltb_antisym. now destruct (_ <=? _).
Qed.

Lemma after_fresh (seed : Buffer) (cs : CharacterSets) (first : Buffer) :
  after seed cs first 0 (fresh first).
Proof.
  split; cbn [fresh p expanded chars].
  - reflexivity.
  - exists 0%nat. repeat split; [|lia|now left].
    unfold grown. cbn [repeat]. now rewrite concat_nil, app_nil_r.
  - reflexivity.
Qed.

Lemma after_iteration (seed : Buffer) (cs : CharacterSets) (first : Buffer)
    (n : nat) (st : Candidate) :
  after seed cs first n st -> after seed cs first (S n) (iteration seed cs st).
Proof.
  intros [Hp (k & Hk & Hle & Hmin) Hc].
  assert (Hlen : List.length (expanded st) = (List.length first + 32 * k)%nat)
    by (rewrite Hk; apply grown_length).
  assert (Hp' : (p st <= List.length (expanded st))%nat) by lia.
  destruct (refill_reads seed st Hp') as (byte & Hread).
  destruct (refill_extends seed st) as (ext & Hext).
  assert (Hpre : firstn n (refill seed st) = firstn n (expanded st)).
  { rewrite Hext, firstn_app.
    replace (n - List.length (expanded st))%nat with 0%nat by lia.
    now rewrite firstn_0, app_nil_r. }
  split.
  - rewrite iteration_p. lia.
  - rewrite iteration_expanded. unfold refill.
    destruct (List.length (expanded st) <=? p st)%nat eqn:E.
    + apply Nat.leb_le in E. exists (S k).
      split; [now rewrite grown_succ, Hk|]. split; [lia | right; lia].
    + apply Nat.leb_gt in E. exists k. split; [assumption|]. split; [lia|].
      destruct Hmin; [now left | right; lia].
  - rewrite iteration_expanded.
    rewrite (firstn_succ_nth_error _ _ byte) by (rewrite <- Hp; exact Hread).
    rewrite sampled_app, sampled_single, Hpre, <- Hc.
    destruct (max (Z.of_nat (List.length (fullSet cs))) <=? byte) eqn:E.
    + apply Z.leb_le in E.
      rewrite (iteration_rejects seed cs st byte Hread E). cbn [chars].
      now rewrite app_nil_r.
    + apply Z.leb_gt in E.
      now rewrite (iteration_accepts seed cs st byte Hread E).
Qed.

Lemma after_iter (seed : Buffer) (cs : CharacterSets) (first : Buffer) (n : nat) :
  after seed cs first n (Nat.iter n (iteration seed cs) (fresh first)).
Proof.
  induction n as [|n IH]; [apply after_fresh|].
  cbn [Nat.iter nat_rect]. now apply after_iteration.
Qed.

(** A finished pass, seen from its start. *)
Lemma fill_after (seed : Buffer) (cs : CharacterSets) (L : Z) (fuel : nat)
    (first : Buffer) (st : Candidate) :
  fill seed cs L fuel (fresh first) = Some st ->
  after seed cs first (p st) st /\ (p st <= fuel)%nat.
Proof.
  intros Hfill. apply fill_iter in Hfill as (j & Hj & -> & _).
  pose proof (after_iter seed cs first j) as H.
  rewrite (after_p _ _ _ _ _ H). now split.
Qed.

(** X7.  In a finished pass of the inner loop the candidate is exactly
    what the bytes read yield: the bytes at positions [0 .. p-1] of
    [expanded], those at or above the threshold dropped, each of the
    others mapped to the character at its index modulo the alphabet
    length, in order.  So every byte read gives at most one character,
    and no character comes from anywhere else. *)
Theorem candidate_is_sampled_prefix (seed : Buffer) (cs : CharacterSets) (L : Z)
    (fuel : nat) (first : Buffer) (st : Candidate) :
  fullSet cs <> [] ->
  fill seed cs L fuel (fresh first) = Some st ->
  chars st = sampled (fullSet cs) (firstn (p st) (expanded st)) /\
  (List.length (chars st) <= p st <= List.length (expanded st))%nat /\
  first = firstn (List.length first) (expanded st).
Proof.
  intros _ Hfill. apply fill_after in Hfill as [[_ (k & Hk & Hle & _) Hc] _].
  split; [exact Hc|]. split; [split|].
  - rewrite Hc. unfold sampled. rewrite length_map.
    etransitivity; [apply filter_length_le|].
    rewrite length_firstn. lia.
  - rewrite Hk, grown_length. lia.
  - rewrite Hk. unfold grown.
    rewrite firstn_app, Nat.sub_diag, firstn_0, app_nil_r.
    symmetry. apply firstn_all.
Qed.

Lemma candidate_is_sampled_prefix_witness :
  exists st,
    fill zero_seed defaults_sets 16 18
         (fresh (first_expansion zero_seed defaults_require_each)) = Some st /\
    chars st = sampled (fullSet defaults_sets) (firstn (p st) (expanded st)) /\
    p st = 17%nat.
Proof.
  eexists. split; [vm_compute; reflexivity|].
  split; [|reflexivity].
  apply (candidate_is_sampled_prefix zero_seed defaults_sets 16 18
           (first_expansion zero_seed defaults_require_each));
    [discriminate | vm_compute; reflexivity].
Defined.

(** ** When the derivation returns *)

Lemma chars_iter (seed : Buffer) (cs : CharacterSets) (first : Buffer) (n K : nat) :
  (n <= List.length first + 32 * K)%nat ->
  chars (Nat.iter n (iteration seed cs) (fresh first)) =
  sampled (fullSet cs) (firstn n (grown seed first K)).
Proof.
  intros HK. destruct (after_iter seed cs first n) as [_ (k & Hk & Hle & Hmin) Hc].
  rewrite Hc, Hk. f_equal. symmetry. apply grown_firstn; [assumption|].
  destruct Hmin; lia.
Qed.

Lemma sampled_prefix (alphabet : str) (l : Buffer) (n : nat) :
  sampled alphabet (firstn n l) =
  firstn (List.length (sampled alphabet (firstn n l))) (sampled alphabet l).
Proof.
  rewrite <- (firstn_skipn n l) at 3. rewrite sampled_app.
  rewrite firstn_app, Nat.sub_diag, firstn_0, app_nil_r.
  symmetry. apply firstn_all.
Qed.

Lemma sampled_length_le (alphabet : str) (l : Buffer) (n : nat) :
  (List.length (sampled alphabet (firstn n l)) <= List.length (sampled alphabet l))%nat.
Proof.
  rewrite <- (firstn_skipn n l) at 2. rewrite sampled_app, length_app. lia.
Qed.

(** One pass of the outer loop when coverage is not required. *)
Lemma attempts_once (seed : Buffer) (cs : CharacterSets) (L : Z) (fuel : nat)
    (first : Buffer) (st : Candidate) :
  fill seed cs L (S fuel) (fresh first) = Some st ->
  attempts seed cs L false (S fuel) first = Returned (join (chars st)).
Proof. intros H. cbn [attempts]. now rewrite H. Qed.

Lemma attempts_first_pass (seed : Buffer) (cs : CharacterSets) (L : Z) (req : bool)
    (fuel : nat) (first : Buffer) (pw : str) :
  attempts seed cs L req fuel first = Returned pw ->
  exists st, fill seed cs L fuel (fresh first) = Some st.
Proof.
  destruct fuel as [|fuel]; [discriminate|]. cbn [attempts].
  destruct (fill seed cs L (S fuel) (fresh first)) as [st|]; [eauto | discriminate].
Qed.

Lemma first_expansion_length (seed : Buffer) (s : Settings) :
  List.length (first_expansion seed s) = Z.to_nat (passwordLength s * 2).
Proof. apply expandEntropy_length. Qed.

Lemma first_expansion_bytes (seed : Buffer) (s : Settings) :
  Forall is_byte (first_expansion seed s).
Proof. apply expandEntropy_bytes. Qed.

(** The pass over a buffer that already holds enough accepted bytes. *)
Lemma fill_within_first (seed : Buffer) (cs : CharacterSets) (L : Z) (fuel : nat)
    (first : Buffer) :
  fullSet cs <> [] -> 0 <= L -> Forall is_byte first ->
  (Z.to_nat L <= List.length (sampled (fullSet cs) first))%nat ->
  (List.length first <= fuel)%nat ->
  exists st, fill seed cs L fuel (fresh first) = Some st /\
             (p st <= List.length first)%nat /\
             expanded st = first /\
             chars st = firstn (Z.to_nat L) (sampled (fullSet cs) first).
Proof.
  intros Hne HL Hb Hcount Hfuel.
  assert (Hfirst : grown seed first 0 = first).
  { unfold grown. cbn [repeat]. now rewrite concat_nil, app_nil_r. }
  destruct (fill_reaches seed cs L fuel (List.length first) (fresh first) Hfuel)
    as (st & Hfill).
  { unfold unfinished. rewrite (chars_iter seed cs first _ 0) by lia.
    rewrite Hfirst, firstn_all. apply Z.ltb_ge. lia. }
  exists st. split; [exact Hfill|].
  destruct (fill_sound seed cs L Hne _ _ _ Hfill (fresh_sound cs _ Hb)) as [_ Hlen];
    [cbn; lia|].
  apply fill_iter in Hfill as (j & _ & -> & _ & Hbefore).
  assert (Hj : (j <= List.length first)%nat).
  { destruct (Nat.le_gt_cases j (List.length first)) as [H|H]; [exact H|].
    specialize (Hbefore _ H). unfold unfinished in Hbefore.
    rewrite (chars_iter seed cs first _ 0) in Hbefore by lia.
    rewrite Hfirst, firstn_all in Hbefore. apply Z.ltb_lt in Hbefore. lia. }
  destruct (after_iter seed cs first j) as [Hp (k & Hk & Hle & Hmin) _].
  split; [lia|]. split.
  - rewrite Hk. destruct Hmin as [-> | Hmin]; [exact Hfirst | lia].
  - rewrite (chars_iter seed cs first j 0) in Hlen |- * by lia.
    rewrite Hfirst in *. rewrite sampled_prefix. f_equal. lia.
Qed.

(** X8.  When the first expansion already holds [passwordLength]
    accepted bytes and coverage is not required, [generatePassword]
    returns, without re-expanding, the characters that the first
    [passwordLength] accepted bytes of the first expansion select. *)
Theorem password_from_first_expansion (fuel : nat) (seed : Buffer) (s : Settings)
    (cs : CharacterSets) :
  buildCharacterSets s = Returned cs ->
  requireEachSelected s = false ->
  (Z.to_nat (passwordLength s) <=
   List.length (sampled (fullSet cs) (first_expansion seed s)))%nat ->
  (List.length (first_expansion seed s) < fuel)%nat ->
  generatePassword fuel seed s =
  Returned (join (firstn (Z.to_nat (passwordLength s))
                         (sampled (fullSet cs) (first_expansion seed s)))).
Proof.
  intros B Hreq Hcount Hfuel. unfold generatePassword. rewrite B, Hreq.
  fold (first_expansion seed s).
  pose proof (passwordLength_range s) as HL.
  destruct fuel as [|fuel]; [lia|].
  destruct (fill_within_first seed cs (passwordLength s) (S fuel)
              (first_expansion seed s))
    as (st & Hfill & _ & _ & Hchars);
    [eapply buildCharacterSets_nonempty; eauto | lia
    | apply first_expansion_bytes | exact Hcount | lia |].
  rewrite (attempts_once _ _ _ _ _ _ Hfill). now rewrite Hchars.
Qed.

Lemma password_from_first_expansion_witness :
  generatePassword 17 zero_seed lower8 = Returned (ascii_codes "ygxfpkck").
Proof.
  rewrite (password_from_first_expansion 17 zero_seed lower8
             {| fullSet := sets.lowercase;
                categories := [(lowercase, sets.lowercase)] |});
    [vm_compute; reflexivity | reflexivity | reflexivity
    | apply Nat.leb_le; vm_compute; reflexivity
    | apply Nat.ltb_lt; vm_compute; reflexivity].
Defined.

Lemma sampled_all_accepted (alphabet : str) (l : Buffer) :
  max (Z.of_nat (List.length alphabet)) = 256 -> Forall is_byte l ->
  sampled alphabet l = map (selects alphabet) l.
Proof.
  intros Hmax Hb. unfold sampled. f_equal.
  apply forallb_filter_id. apply forallb_forall. intros b Hin.
  rewrite Forall_forall in Hb. specialize (Hb b Hin).
  unfold accepted. rewrite Hmax. apply Z.ltb_lt. apply Hb.
Qed.

(** X9.  When the alphabet length divides 256 (one character, or the 32
    symbols, or symbols with extended Latin, ...) no byte is rejected:
    without the coverage requirement [generatePassword] returns for
    every seed, and the password is the first [passwordLength] bytes of
    the expansion, each mapped to the character at its index modulo the
    alphabet length. *)
Theorem password_when_length_divides_256 (fuel : nat) (seed : Buffer) (s : Settings)
    (cs : CharacterSets) :
  buildCharacterSets s = Returned cs ->
  requireEachSelected s = false ->
  256 mod Z.of_nat (List.length (fullSet cs)) = 0 ->
  (List.length (first_expansion seed s) < fuel)%nat ->
  generatePassword fuel seed s =
  Returned (join (map (selects (fullSet cs))
                      (firstn (Z.to_nat (passwordLength s))
                              (first_expansion seed s)))).
Proof.
  intros B Hreq Hdiv Hfuel.
  assert (Hmax : max (Z.of_nat (List.length (fullSet cs))) = 256)
    by (unfold max; lia).
  pose proof (sampled_all_accepted (fullSet cs) _ Hmax (first_expansion_bytes seed s))
    as Hall.
  pose proof (passwordLength_range s) as HL.
  rewrite (password_from_first_expansion fuel seed s cs B Hreq); [|
    rewrite Hall, length_map, first_expansion_length; lia | exact Hfuel].
  now rewrite Hall, firstn_map.
Qed.

Lemma password_when_length_divides_256_witness :
  buildCharacterSets symbols8 = Returned symbols_sets /\
  256 mod Z.of_nat (List.length (fullSet symbols_sets)) = 0 /\
  generatePassword 17 zero_seed symbols8 =
  Returned (join (map (selects sets.symbols)
                      (firstn 8 (first_expansion zero_seed symbols8)))).
Proof.
  split; [reflexivity|]. split; [reflexivity|].
  apply (password_when_length_divides_256 17 zero_seed symbols8 symbols_sets);
    [reflexivity | reflexivity | reflexivity
    | apply Nat.ltb_lt; vm_compute; reflexivity].
Defined.

Lemma sampled_repeat_none (alphabet : str) (b : Buffer) (k : nat) :
  sampled alphabet b = [] ->
  sampled alphabet (List.concat (repeat b k)) = [].
Proof.
  intros Hb. induction k as [|k IH]; [reflexivity|].
  cbn [repeat]. now rewrite concat_cons, sampled_app, Hb, IH.
Qed.

Lemma sampled_repeat_some (alphabet : str) (b : Buffer) (k : nat) :
  sampled alphabet b <> [] ->
  (k <= List.length (sampled alphabet (List.concat (repeat b k))))%nat.
Proof.
  intros Hb. induction k as [|k IH]; [cbn; lia|].
  cbn [repeat]. rewrite concat_cons, sampled_app, length_app.
  destruct (sampled alphabet b); [congruence | cbn [List.length]; lia].
Qed.

(** X10.  Without the coverage requirement, [generatePassword] returns
    a password exactly when the first expansion holds [passwordLength]
    accepted bytes or the re-expansion block holds at least one
    accepted byte; otherwise it reads rejected bytes for ever. *)
Theorem termination_without_requirement (seed : Buffer) (s : Settings)
    (cs : CharacterSets) :
  buildCharacterSets s = Returned cs ->
  requireEachSelected s = false ->
  ((exists fuel pw, generatePassword fuel seed s = Returned pw) <->
   (Z.to_nat (passwordLength s) <=
    List.length (sampled (fullSet cs) (first_expansion seed s)))%nat \/
   sampled (fullSet cs) (expandEntropy seed 32) <> []).
Proof.
  intros B Hreq.
  pose proof (passwordLength_range s) as HL.
  pose proof (buildCharacterSets_nonempty s cs B) as Hne.
  set (L := passwordLength s) in *. set (first := first_expansion seed s).
  split.
  - intros (fuel & pw & Hrun).
    destruct (Nat.le_gt_cases (Z.to_nat L) (List.length (sampled (fullSet cs) first)))
      as [Hle | Hgt]; [now left | right].
    intros Hnone.
    unfold generatePassword in Hrun. rewrite B in Hrun. fold first L in Hrun.
    apply attempts_first_pass in Hrun as (st & Hfill).
    destruct (fill_sound seed cs L Hne _ _ _ Hfill
                (fresh_sound cs _ (first_expansion_bytes seed s))) as [_ Hlen];
      [cbn; lia|].
    apply fill_after in Hfill as [[_ (k & Hk & _ & _) Hc] _].
    rewrite Hc, Hk in Hlen.
    pose proof (sampled_length_le (fullSet cs) (grown seed first k) (p st)) as Hbound.
    unfold grown in Hbound at 2.
    rewrite sampled_app, (sampled_repeat_none _ _ _ Hnone), app_nil_r in Hbound.
    change (expandEntropy seed (Z.to_nat (L * 2))) with first in Hlen.
    lia.
  - intros [Hfirst | Hblock].
    + exists (S (List.length first)). eexists.
      apply (password_from_first_expansion _ seed s cs B Hreq Hfirst).
      subst first. lia.
    + set (K := Z.to_nat L). set (N := (List.length first + 32 * K)%nat).
      destruct (fill_reaches seed cs L (S N) N (fresh first)) as (st & Hfill); [lia| |].
      * unfold unfinished. rewrite (chars_iter seed cs first N K) by (subst N; lia).
        rewrite firstn_all2 by (rewrite grown_length; subst N; lia).
        unfold grown. rewrite sampled_app, length_app.
        pose proof (sampled_repeat_some (fullSet cs) _ K Hblock).
        apply Z.ltb_ge. lia.
      * exists (S N), (join (chars st)).
        unfold generatePassword. rewrite B, Hreq. fold first L.
        now apply attempts_once.
Qed.

Lemma termination_without_requirement_witness :
  buildCharacterSets lower8 =
    Returned {| fullSet := sets.lowercase;
                categories := [(lowercase, sets.lowercase)] |} /\
  sampled sets.lowercase (expandEntropy zero_seed 32) <> [] /\
  exists fuel pw, generatePassword fuel zero_seed lower8 = Returned pw.
Proof.
  assert (H : sampled sets.lowercase (expandEntropy zero_seed 32) <> [])
    by (vm_compute; discriminate).
  split; [reflexivity|]. split; [exact H|].
  apply (termination_without_requirement zero_seed lower8
           {| fullSet := sets.lowercase;
              categories := [(lowercase, sets.lowercase)] |});
    [reflexivity | reflexivity | right; exact H].
Defined.

(** ** The coverage requirement *)

Lemma record_categories_keeps (cs : CharacterSets) (ch : str) (pr : list Category)
    (key : Category) :
  In key pr -> In key (record_categories cs ch pr).
Proof.
  unfold record_categories. generalize (categories cs) as entries.
  intros entries; revert pr.
  induction entries as [|[k set] entries IH]; intros pr H; cbn [fold_left];
    [assumption|].
  apply IH. cbn [fst snd]. destruct (includes set ch); cbn; auto.
Qed.

Lemma record_categories_marks (cs : CharacterSets) (c : Z) (pr : list Category)
    (key : Category) (set : str) :
  In (key, set) (categories cs) -> In c set ->
  In key (record_categories cs [c] pr).
Proof.
  intros Hin Hc. apply (proj2 (includes_singleton set c)) in Hc.
  apply in_split in Hin as (before & rest & Hsplit).
  unfold record_categories. rewrite Hsplit, fold_left_app. cbn [fold_left fst snd].
  rewrite Hc.
  apply (record_categories_keeps {| fullSet := []; categories := rest |}).
  cbn; auto.
Qed.

Lemma push_complete (cs : CharacterSets) (buffer : Buffer) (ch : str) (st : Candidate) :
  complete cs st -> complete cs (push cs buffer ch st).
Proof.
  intros Hcomp key set c Hin Hch Hc. cbn [push chars present] in *.
  apply in_app_or in Hch as [Hch | [-> | []]].
  - apply record_categories_keeps. eapply Hcomp; eauto.
  - eapply record_categories_marks; eauto.
Qed.

Lemma iteration_complete (seed : Buffer) (cs : CharacterSets) (st : Candidate) :
  complete cs st -> complete cs (iteration seed cs st).
Proof.
  intros H. unfold iteration.
  destruct (nth_error _ _); [destruct (_ <=? _)|]; auto using push_complete.
Qed.

Lemma fill_complete (seed : Buffer) (cs : CharacterSets) (L : Z) (fuel : nat)
    (st st' : Candidate) :
  fill seed cs L fuel st = Some st' -> complete cs st -> complete cs st'.
Proof.
  revert st. induction fuel as [|fuel IH]; intros st Hfill Hc; cbn [fill] in Hfill;
    destruct (_ <? _); try discriminate; try (now injection Hfill as <-).
  eapply IH; eauto using iteration_complete.
Qed.

Lemma fresh_complete (cs : CharacterSets) (first : Buffer) : complete cs (fresh first).
Proof. intros key set c _ []. Qed.

(** The check after the inner loop passes exactly when the candidate
    has a character of every selected category. *)
Lemma ok_iff_covers (cs : CharacterSets) (st : Candidate) :
  sound cs st -> complete cs st -> NoDup (map fst (categories cs)) ->
  ok cs st = true <-> covers cs (join (chars st)).
Proof.
  intros Hs Hc Hnd. split.
  - intros Hok key set Hin. eapply ok_represents; eauto.
  - intros Hcov. unfold ok. apply forallb_forall. intros [key set] Hin. cbn [fst].
    apply has_In. destruct (Hcov key set Hin) as (c & Hpw & Hset).
    unfold join in Hpw. apply in_concat in Hpw as (ch & Hch & Hcin).
    pose proof (sound_chars _ _ Hs) as Hsingle. rewrite Forall_forall in Hsingle.
    destruct (Hsingle ch Hch) as (c' & -> & _).
    destruct Hcin as [<- | []]. eapply Hc; eauto.
Qed.

Lemma without_requirement_builds (s : Settings) :
  buildCharacterSets (without_requirement s) = buildCharacterSets s.
Proof. reflexivity. Qed.

(** X11.  The coverage requirement never changes the password that is
    derived: with [requireEachSelected] set, [generatePassword] returns
    [pw] exactly when it returns [pw] for the same settings without the
    requirement and [pw] has a character of every selected category.
    When the password derived without the requirement lacks a category,
    the call with the requirement does not return. *)
Theorem requirement_only_gates (seed : Buffer) (s : Settings) (cs : CharacterSets)
    (pw : str) :
  buildCharacterSets s = Returned cs ->
  requireEachSelected s = true ->
  ((exists fuel, generatePassword fuel seed s = Returned pw) <->
   (exists fuel, generatePassword fuel seed (without_requirement s) = Returned pw) /\
   covers cs pw).
Proof.
  intros B Hreq.
  pose proof (passwordLength_range s) as HL.
  pose proof (buildCharacterSets_nonempty s cs B) as Hne.
  pose proof (buildCharacterSets_keys s cs B) as Hnd.
  assert (Hpass : forall fuel st,
            fill seed cs (passwordLength s) fuel (fresh (first_expansion seed s)) = Some st ->
            (ok cs st = true <-> covers cs (join (chars st)))).
  { intros fuel st Hfill. apply ok_iff_covers; [| |exact Hnd].
    - apply (fill_sound seed cs _ Hne _ _ _ Hfill
               (fresh_sound cs _ (first_expansion_bytes seed s))). cbn; lia.
    - eapply fill_complete; eauto using fresh_complete. }
  unfold generatePassword. rewrite without_requirement_builds, B, Hreq.
  change (passwordLength (without_requirement s)) with (passwordLength s).
  change (requireEachSelected (without_requirement s)) with false.
  fold (first_expansion seed s).
  split.
  - intros (fuel & Hrun).
    destruct (attempts_first_pass _ _ _ _ _ _ _ Hrun) as (st & Hfill).
    destruct (ok cs st) eqn:Hok.
    + destruct fuel as [|fuel]; [discriminate|].
      cbn [attempts negb] in Hrun. rewrite Hfill, Hok in Hrun. injection Hrun as <-.
      split; [exists (S fuel); now apply attempts_once|].
      now apply (Hpass _ _ Hfill).
    + rewrite (attempts_stuck seed cs _ _ st Hok fuel _ Hfill) in Hrun. discriminate.
  - intros [(fuel & Hrun) Hcov].
    destruct fuel as [|fuel]; [discriminate|].
    destruct (attempts_first_pass _ _ _ _ _ _ _ Hrun) as (st & Hfill).
    rewrite (attempts_once _ _ _ _ _ _ Hfill) in Hrun. injection Hrun as <-.
    exists (S fuel). cbn [attempts negb]. rewrite Hfill.
    now rewrite (proj2 (Hpass _ _ Hfill) Hcov).
Qed.

Lemma requirement_only_gates_witness :
  buildCharacterSets lower_digits8 = Returned lower_digits_sets /\
  requireEachSelected lower_digits8 = true /\
  (exists fuel, generatePassword fuel zero_seed (without_requirement lower_digits8)
                = Returned (ascii_codes "4695faem")) /\
  covers lower_digits_sets (ascii_codes "4695faem").
Proof.
  split; [reflexivity|]. split; [reflexivity|].
  apply (requirement_only_gates zero_seed lower_digits8 lower_digits_sets
           (ascii_codes "4695faem")); [reflexivity | reflexivity |].
  exists 20%nat. vm_compute. reflexivity.
Defined.

(** ** Re-expansion *)

Lemma nth_error_concat_repeat (b : Buffer) (k i : nat) :
  List.length b = 32%nat -> (i < 32 * k)%nat ->
  nth_error (List.concat (repeat b k)) i = nth_error b (i mod 32).
Proof.
  intros Hb. revert i. induction k as [|k IH]; intros i Hi; [lia|].
  cbn [repeat]. rewrite concat_cons.
  destruct (Nat.lt_ge_cases i 32) as [Hlt | Hge].
  - rewrite nth_error_app1 by lia. now rewrite Nat.mod_small.
  - rewrite nth_error_app2 by lia. rewrite Hb, IH by lia. f_equal.
    replace i with (i - 32 + 1 * 32)%nat at 2 by lia.
    now rewrite Nat.Div0.mod_add.
Qed.

(** X12.  The buffer grows only when the sampler has read all of it,
    and each time by the same 32 bytes: it is the first expansion
    followed by copies of [expandEntropy(entropy, 32)].  When
    [passwordLength] is at least 16 those are the first 32 bytes of the
    first expansion, so the byte read at position [n + i] past the [n]
    bytes of the first expansion is the byte at position [i mod 32]:
    the sampler reads again bytes it has already consumed. *)
Theorem reexpansion_rereads_first_block (fuel : nat) (seed : Buffer) (s : Settings)
    (cs : CharacterSets) (st : Candidate) :
  buildCharacterSets s = Returned cs ->
  fill seed cs (passwordLength s) fuel (fresh (first_expansion seed s)) = Some st ->
  16 <= passwordLength s ->
  exists k,
    expanded st = grown seed (first_expansion seed s) k /\
    (k = 0%nat \/
     (List.length (first_expansion seed s) + 32 * (k - 1) < p st)%nat) /\
    forall i, (i < 32 * k)%nat ->
      nth_error (expanded st) (List.length (first_expansion seed s) + i) =
      nth_error (first_expansion seed s) (i mod 32).
Proof.
  intros _ Hfill HL.
  apply fill_after in Hfill as [[_ (k & Hk & _ & Hmin) _] _].
  exists k. split; [exact Hk|]. split; [exact Hmin|].
  intros i Hi. rewrite Hk. unfold grown.
  rewrite nth_error_app2 by lia.
  replace (List.length (first_expansion seed s) + i
           - List.length (first_expansion seed s))%nat with i by lia.
  rewrite nth_error_concat_repeat by (apply expandEntropy_length || exact Hi).
  pose proof (first_expansion_length seed s) as Hlen.
  rewrite (expandEntropy_prefix_stable seed 32 (Z.to_nat (passwordLength s * 2)))
    by lia.
  fold (first_expansion seed s). rewrite nth_error_firstn.
  pose proof (Nat.mod_upper_bound i 32).
  destruct (Nat.ltb_spec (i mod 32) 32); [reflexivity | lia].
Qed.

Lemma reexpansion_rereads_first_block_witness :
  fill zero_seed half_rejecting_sets (passwordLength half_rejecting) 140
       (fresh (first_expansion zero_seed half_rejecting)) = Some half_rejecting_pass /\
  List.length (first_expansion zero_seed half_rejecting) = 136%nat /\
  p half_rejecting_pass = 137%nat /\
  nth_error (expanded half_rejecting_pass) (136 + 0) =
  nth_error (first_expansion zero_seed half_rejecting) (0 mod 32).
Proof.
  assert (Hfill : fill zero_seed half_rejecting_sets (passwordLength half_rejecting) 140
                    (fresh (first_expansion zero_seed half_rejecting))
                  = Some half_rejecting_pass) by (vm_compute; reflexivity).
  assert (Hfirst : List.length (first_expansion zero_seed half_rejecting) = 136%nat)
    by apply first_expansion_length.
  assert (Hlen : List.length (expanded half_rejecting_pass) = 168%nat) by reflexivity.
  split; [exact Hfill|]. split; [exact Hfirst|]. split; [reflexivity|].
  destruct (reexpansion_rereads_first_block 140 zero_seed half_rejecting
              half_rejecting_sets half_rejecting_pass eq_refl Hfill)
    as (k & Hk & _ & Hread); [vm_compute; discriminate|].
  rewrite Hk, grown_length, Hfirst in Hlen.
  rewrite <- Hfirst at 1. apply Hread. lia.
Defined.

(** ** The answers of the handler *)

(** X13.  For a body typed as the front end sends it (a [Parsed]:
    [entropy] absent or a base64 string, [settings] absent or an object
    with the field types of [Settings]), every answer of the [/generate]
    handler is either 200 with a password, and then the request carried
    32 bytes of entropy and settings with a non-empty alphabet, and the
    password has between 1 and 2048 characters, all from the alphabet,
    covering every selected category if that was required; or 400 with
    one of the three error messages that the handler and the builder
    throw.  For such a body there is no 200 answer with an empty
    password.  Bodies with fields of other types are not covered: on
    those the handler can answer 400 with the message of a [TypeError]. *)
Theorem handler_answers (fuel : nat) (parsed : option Parsed) (resp : Response) :
  on_end fuel parsed = Some resp ->
  (status resp = 200 /\
   exists seed s cs pw,
     parsed = Some {| entropy := Some seed; settings := Some s |} /\
     List.length seed = 32%nat /\
     buildCharacterSets s = Returned cs /\
     body resp = password pw /\
     (1 <= List.length pw <= 2048)%nat /\
     Forall (fun c => In c (fullSet cs)) pw /\
     (requireEachSelected s = true -> covers cs pw)) \/
  (status resp = 400 /\
   exists message,
     body resp = error message /\
     (message = missing_fields_message \/ message = entropy_size_message \/
      message = no_categories_message)).
Proof.
  unfold on_end. destruct (try_block fuel parsed) as [pw|msg|] eqn:T;
    intros [= <-]; cbn [status body].
  - left. split; [reflexivity|].
    unfold try_block in T.
    destruct parsed as [[[seed|] [s|]]|]; try discriminate.
    destruct (List.length seed =? 32)%nat eqn:E; [|discriminate].
    cbn [negb] in T. apply Nat.eqb_eq in E.
    pose proof (generatePassword_returned _ _ _ _ T)
      as (cs & st & B & Hs & Hlen & -> & Hok).
    pose proof (passwordLength_range s) as HL.
    exists seed, s, cs, (join (chars st)).
    split; [reflexivity|]. split; [exact E|]. split; [exact B|].
    split; [reflexivity|].
    rewrite (join_length (fullSet cs)) by apply (sound_chars _ _ Hs).
    split; [lia|]. split; [apply join_alphabet, (sound_chars _ _ Hs)|].
    intros Hreq key set Hin.
    eapply ok_represents; eauto using buildCharacterSets_keys.
  - right. split; [reflexivity|]. exists msg. split; [reflexivity|].
    unfold try_block in T.
    destruct parsed as [[[seed|] [s|]]|]; try (injection T as <-; auto).
    destruct (negb _); [injection T as <-; auto|].
    unfold generatePassword in T.
    destruct (buildCharacterSets s) as [cs|m|] eqn:B; [| |discriminate].
    + now apply attempts_never_throws in T.
    + injection T as <-. apply buildCharacterSets_thrown in B as (-> & _). auto.
Qed.

Lemma handler_answers_witness :
  on_end 20 (Some {| entropy := Some zero_seed; settings := Some lower8 |}) =
  Some {| status := 200; body := password (ascii_codes "ygxfpkck") |} /\
  (1 <= List.length (ascii_codes "ygxfpkck") <= 2048)%nat.
Proof.
  assert (H : on_end 20 (Some {| entropy := Some zero_seed; settings := Some lower8 |}) =
              Some {| status := 200; body := password (ascii_codes "ygxfpkck") |})
    by (vm_compute; reflexivity).
  split; [exact H|].
  destruct (handler_answers 20 _ _ H) as [(_ & seed & s & cs & pw & _ & _ & _ & Hb & Hl & _)
                                          | (Hs & _)].
  - cbn [body] in Hb. injection Hb as <-. exact Hl.
  - discriminate Hs.
Defined.

(** ** Coverage that no password can satisfy *)

Lemma NoDup_app_disjoint {A : Type} (l l' : list A) (a : A) :
  NoDup (l ++ l') -> In a l -> In a l' -> False.
Proof.
  induction l as [|x l IH]; cbn; intros Hnd Hl Hl'; [contradiction|].
  inversion Hnd as [|? ? Hx Hnd']; subst.
  destruct Hl as [-> | Hl]; [|now apply IH].
  apply Hx, in_or_app. now right.
Qed.

(** Pairwise disjoint sets that each have a member in [pw] are at most
    as many as [pw] is long. *)
Lemma disjoint_sets_pigeonhole (sets0 : list str) (pw : str) :
  NoDup (List.concat sets0) ->
  (forall set, In set sets0 -> represents pw set) ->
  (List.length sets0 <= List.length pw)%nat.
Proof.
  intros Hnd Hrep.
  assert (H : exists picks, List.length picks = List.length sets0 /\ NoDup picks /\
                            incl picks pw /\ incl picks (List.concat sets0)).
  { induction sets0 as [|set rest IH].
    - exists []. repeat split; [constructor | intros x [] | intros x []].
    - rewrite concat_cons in Hnd.
      destruct IH as (picks & Hlen & Hpicks & Hpw & Hin).
      + exact (NoDup_app_remove_l _ _ Hnd).
      + intros set' Hset'. apply Hrep. now right.
      + destruct (Hrep set (or_introl eq_refl)) as (c & Hc & Hcset).
        exists (c :: picks). cbn [List.length]. split; [now rewrite Hlen|].
        split; [|split].
        * constructor; [|assumption]. intros Hcp. apply Hin in Hcp.
          exact (NoDup_app_disjoint _ _ c Hnd Hcset Hcp).
        * intros x [<- | Hx]; auto.
        * intros x [<- | Hx]; rewrite concat_cons; apply in_or_app; auto. }
  destruct H as (picks & Hlen & Hpicks & Hpw & _).
  rewrite <- Hlen. now apply NoDup_incl_length.
Qed.

(** X14.  Without custom characters, when coverage is required and the
    length used is smaller than the number of selected categories,
    [generatePassword] does not return, whatever the seed: a covering
    password would need one character for each of the pairwise disjoint
    categories.  The front end's shortest length, 4, with all five
    categories on, is such a case. *)
Theorem fewer_characters_than_categories (seed : Buffer) (s : Settings)
    (cs : CharacterSets) :
  customCharacters s = [] ->
  buildCharacterSets s = Returned cs ->
  requireEachSelected s = true ->
  passwordLength s < Z.of_nat (List.length (categories cs)) ->
  forall fuel, generatePassword fuel seed s = Diverged.
Proof.
  intros Hcustom B Hreq Hshort fuel.
  pose proof (passwordLength_range s) as HL.
  pose proof (buildCharacterSets_nonempty s cs B) as Hne.
  pose proof (buildCharacterSets_keys s cs B) as Hkeys.
  destruct (standard_fullSet s cs Hcustom B) as [Hnd _].
  rewrite (fullSet_concat s cs B) in Hnd.
  unfold generatePassword. rewrite B, Hreq. fold (first_expansion seed s).
  destruct (fill seed cs (passwordLength s) fuel (fresh (first_expansion seed s)))
    as [st|] eqn:Hfill.
  - destruct (fill_sound seed cs _ Hne _ _ _ Hfill
                (fresh_sound cs _ (first_expansion_bytes seed s))) as [Hs Hlen];
      [cbn; lia|].
    destruct (ok cs st) eqn:Hok.
    + exfalso.
      assert (Hcount : (List.length (map snd (categories cs))
                        <= List.length (join (chars st)))%nat).
      { apply disjoint_sets_pigeonhole; [exact Hnd|].
        intros set Hset. apply in_map_iff in Hset as ([key set'] & <- & Hin).
        eapply ok_represents; eauto. }
      rewrite length_map, (join_length (fullSet cs)) in Hcount
        by apply (sound_chars _ _ Hs).
      lia.
    + eapply attempts_stuck; eauto.
  - destruct fuel as [|fuel]; [reflexivity|]. cbn [attempts]. now rewrite Hfill.
Qed.

Lemma fewer_characters_than_categories_witness :
  buildCharacterSets five_in_four = Returned five_sets /\
  passwordLength five_in_four = 4 /\
  List.length (categories five_sets) = 5%nat /\
  forall fuel, generatePassword fuel zero_seed five_in_four = Diverged.
Proof.
  split; [reflexivity|]. split; [reflexivity|]. split; [reflexivity|].
  apply (fewer_characters_than_categories zero_seed five_in_four five_sets);
    [reflexivity | reflexivity | reflexivity | vm_compute; reflexivity].
Defined.

Lemma alphabet_is_concatenation_witness :
  buildCharacterSets defaults_require_each = Returned defaults_sets /\
  fullSet defaults_sets = List.concat (map snd (categories defaults_sets)) /\
  map fst (categories defaults_sets) = [lowercase; uppercase; numbers; symbols].
Proof.
  split; [reflexivity|].
  destruct (alphabet_is_concatenation defaults_require_each defaults_sets eq_refl)
    as (Hcat & _ & Horder).
  split; [exact Hcat | exact Horder].
Defined.

(** ** The front end: collecting mouse movements *)

Section ClientFacts.

Variable Sample : Type.

Lemma computed_app (e e' : list (Client.Effect Sample)) :
  Client.computed (e ++ e') = Client.computed e ++ Client.computed e'.
Proof.
  induction e as [|[| | |m] e IH]; cbn; rewrite ?IH; reflexivity.
Qed.

(** Once the flag is up, no event calls [computeEntropy]. *)
Lemma handleMoves_after_computed (events : list (nat * Sample))
    (refs : Client.Refs Sample) :
  Client.hasComputedEntropy refs = true ->
  Client.hasComputedEntropy (fst (Client.handleMoves events refs)) = true /\
  Client.computed (snd (Client.handleMoves events refs)) = [].
Proof.
  revert refs. induction events as [|[r sample] rest IH]; intros refs Hflag;
    [now split|].
  cbn [Client.handleMoves].
  destruct (Client.handleMove r sample refs) as [refs1 effects1] eqn:E1.
  destruct (Client.handleMoves rest refs1) as [refs2 effects2] eqn:E2.
  cbn [fst snd]. unfold Client.handleMove in E1. rewrite Hflag in E1.
  rewrite andb_false_r in E1.
  assert (H1 : Client.hasComputedEntropy refs1 = true /\ Client.computed effects1 = []).
  { destruct (r <=? _)%nat; injection E1 as <- <-; now split. }
  destruct H1 as [Hflag1 Hnone1].
  specialize (IH refs1 Hflag1). rewrite E2 in IH. cbn [fst snd] in IH.
  rewrite computed_app, Hnone1. exact IH.
Qed.

(** The recorded samples only grow. *)
Lemma handleMoves_extends (events : list (nat * Sample)) (refs : Client.Refs Sample) :
  exists rest,
    Client.movementRef (fst (Client.handleMoves events refs)) =
    Client.movementRef refs ++ rest.
Proof.
  revert refs. induction events as [|[r sample] rest IH]; intros refs.
  - exists []. cbn. now rewrite app_nil_r.
  - cbn [Client.handleMoves].
    destruct (Client.handleMove r sample refs) as [refs1 effects1] eqn:E1.
    specialize (IH refs1).
    destruct (Client.handleMoves rest refs1) as [refs2 effects2] eqn:E2.
    cbn [fst] in *. destruct IH as (more & Hmore). rewrite Hmore.
    unfold Client.handleMove in E1.
    destruct (r <=? _)%nat; [injection E1 as <- _; eauto|].
    destruct (_ && _); injection E1 as <- _; cbn [Client.movementRef];
      rewrite <- app_assoc; eauto.
Qed.

Lemma handleMoves_at_most_once (events : list (nat * Sample))
    (refs : Client.Refs Sample) :
  Client.hasComputedEntropy refs = false ->
  let final := fst (Client.handleMoves events refs) in
  let effects := snd (Client.handleMoves events refs) in
  (Client.hasComputedEntropy final = false /\ Client.computed effects = []) \/
  (Client.hasComputedEntropy final = true /\
   exists movements rest,
     Client.computed effects = [movements] /\
     Client.movementRef final = movements ++ rest).
Proof.
  revert refs. induction events as [|[r sample] rest IH]; intros refs Hflag;
    [left; now split|].
  cbn zeta. cbn [Client.handleMoves].
  destruct (Client.handleMove r sample refs) as [refs1 effects1] eqn:E1.
  pose proof (handleMoves_after_computed rest refs1) as Hafter.
  pose proof (handleMoves_extends rest refs1) as (more & Hmore).
  specialize (IH refs1).
  destruct (Client.handleMoves rest refs1) as [refs2 effects2] eqn:E2.
  cbn [fst snd] in *. rewrite computed_app.
  unfold Client.handleMove in E1. rewrite Hflag in E1. cbn [negb] in E1.
  rewrite andb_true_r in E1.
  destruct (r <=? List.length (Client.movementRef refs))%nat.
  - injection E1 as <- <-. cbn [Client.computed app]. now apply IH.
  - destruct (r <=? _)%nat; injection E1 as <- <-.
    + right. destruct Hafter as [Hf Hnone]; [reflexivity|].
      split; [exact Hf|].
      exists (Client.movementRef refs ++ [sample]), more.
      cbn [Client.computed app]. rewrite Hnone. split; [reflexivity | exact Hmore].
    + cbn [Client.computed app]. now apply IH.
Qed.

(** With the slider left alone, exactly the first [r] events count. *)
Lemma handleMoves_saturated (r : nat) (samples : list Sample)
    (refs : Client.Refs Sample) :
  (r <= List.length (Client.movementRef refs))%nat ->
  Client.handleMoves (map (pair r) samples) refs = (refs, []).
Proof.
  intros Hr. induction samples as [|sample rest IH]; [reflexivity|].
  cbn [map Client.handleMoves]. unfold Client.handleMove.
  replace (r <=? _)%nat with true by (symmetry; now apply Nat.leb_le).
  now rewrite IH.
Qed.

Lemma handleMoves_constant (r : nat) (samples pre : list Sample) :
  (List.length pre < r)%nat ->
  let refs := {| Client.movementRef := pre; Client.hasComputedEntropy := false |} in
  let all := pre ++ samples in
  Client.movementRef (fst (Client.handleMoves (map (pair r) samples) refs))
    = firstn r all /\
  Client.computed (snd (Client.handleMoves (map (pair r) samples) refs))
    = (if (r <=? List.length all)%nat then [firstn r all] else []).
Proof.
  revert pre. induction samples as [|sample rest IH]; intros pre Hpre; cbn zeta.
  - cbn [map Client.handleMoves fst snd Client.movementRef Client.computed].
    rewrite app_nil_r, firstn_all2 by lia.
    replace (r <=? _)%nat with false by (symmetry; apply Nat.leb_gt; lia).
    now split.
  - cbn [map Client.handleMoves]. unfold Client.handleMove.
    cbn [Client.movementRef Client.hasComputedEntropy negb].
    replace (r <=? List.length pre)%nat with false
      by (symmetry; apply Nat.leb_gt; lia).
    rewrite andb_true_r, length_app. cbn [List.length].
    replace (pre ++ sample :: rest) with ((pre ++ [sample]) ++ rest)
      by (now rewrite <- app_assoc).
    destruct (r <=? List.length pre + 1)%nat eqn:E.
    + apply Nat.leb_le in E.
      rewrite handleMoves_saturated
        by (cbn [Client.movementRef]; rewrite length_app; cbn; lia).
      cbn [fst snd Client.movementRef].
      rewrite firstn_app, firstn_all2 by (rewrite length_app; cbn; lia).
      replace (r - List.length (pre ++ [sample]))%nat with 0%nat
        by (rewrite length_app; cbn; lia).
      rewrite firstn_0, app_nil_r.
      replace (r <=? _)%nat with true
        by (symmetry; apply Nat.leb_le; rewrite !length_app; cbn; lia).
      rewrite app_nil_r, computed_app. cbn. now split.
    + apply Nat.leb_gt in E.
      specialize (IH (pre ++ [sample])). cbn zeta in IH.
      destruct IH as [IH1 IH2]; [rewrite length_app; cbn; lia|].
      destruct (Client.handleMoves (map (pair r) rest) _) as [refs2 effects2].
      cbn [fst snd] in *. rewrite computed_app. cbn [Client.computed app].
      now split.
Qed.

End ClientFacts.

(** X15.  Between two calls of [startCollection], whatever the mouse
    events and however the slider is moved meanwhile, [computeEntropy]
    is called at most once, and it is called exactly when the
    [hasComputedEntropy] flag ends up set; the samples it receives are
    the ones recorded up to that moment, a prefix of those recorded at
    the end. *)
Theorem entropy_computed_at_most_once (Sample : Type)
    (events : list (nat * Sample)) :
  let final := fst (Client.handleMoves events Client.startCollection) in
  let effects := snd (Client.handleMoves events Client.startCollection) in
  (List.length (Client.computed effects) <= 1)%nat /\
  (Client.hasComputedEntropy final = true <-> Client.computed effects <> []) /\
  (forall movements, In movements (Client.computed effects) ->
     exists rest, Client.movementRef final = movements ++ rest).
Proof.
  cbn zeta.
  destruct (handleMoves_at_most_once Sample events Client.startCollection eq_refl)
    as [[Hflag Hnone] | [Hflag (movements & rest & Hone & Hrefs)]].
  - rewrite Hnone, Hflag. cbn. repeat split; try lia; try congruence; contradiction.
  - rewrite Hone, Hflag. cbn. repeat split; try lia; try congruence.
    intros m [<- | []]. eauto.
Qed.

(** X16.  With the slider left at [r >= 1], the samples recorded after
    any run of events are the first [r] of them in arrival order, and
    [computeEntropy] is called, once, with exactly those [r] samples, as
    soon as [r] events have arrived and not before. *)
Theorem entropy_from_first_samples (Sample : Type) (r : nat) (samples : list Sample) :
  (1 <= r)%nat ->
  let run := Client.handleMoves (map (pair r) samples) Client.startCollection in
  Client.movementRef (fst run) = firstn r samples /\
  Client.computed (snd run) =
    (if (r <=? List.length samples)%nat then [firstn r samples] else []).
Proof.
  intros Hr. exact (handleMoves_constant Sample r samples [] Hr).
Qed.

Lemma entropy_from_first_samples_witness :
  Client.computed
    (snd (Client.handleMoves (map (pair 2%nat) [10; 20; 30]) Client.startCollection))
  = [[10; 20]].
Proof.
  destruct (entropy_from_first_samples Z 2 [10; 20; 30]) as [_ H]; [lia|].
  exact H.
Defined.

(** X17.  If, before the entropy was computed, the slider is lowered to
    or below the number of samples already recorded, the collection is
    blocked: as long as the slider stays there no event records a
    sample, updates the display or calls [computeEntropy]. *)
Theorem lowered_slider_blocks_collection (Sample : Type)
    (events : list (nat * Sample)) (refs : Client.Refs Sample) :
  Forall (fun event => (fst event <= List.length (Client.movementRef refs))%nat) events ->
  Client.handleMoves events refs = (refs, []).
Proof.
  induction 1 as [|[r sample] rest Hr _ IH]; [reflexivity|].
  cbn [Client.handleMoves]. unfold Client.handleMove. cbn [fst] in Hr.
  replace (r <=? _)%nat with true by (symmetry; now apply Nat.leb_le).
  now rewrite IH.
Qed.

Lemma lowered_slider_blocks_collection_witness :
  let refs := fst (Client.handleMoves [(5, 1); (5, 2); (5, 3)]%nat Client.startCollection) in
  Client.hasComputedEntropy refs = false /\
  Client.handleMoves [(3, 4); (2, 5); (3, 6)]%nat refs = (refs, []).
Proof.
  cbn zeta. split; [reflexivity|].
  apply (lowered_slider_blocks_collection nat).
  repeat constructor.
Defined.

(** ** Static files: paths *)

Lemma str_eqb_eq (a b : str) : path.str_eqb a b = true <-> a = b.
Proof.
  revert b. induction a as [|x a IH]; intros [|y b]; cbn; split;
    try congruence; try discriminate.
  - rewrite andb_true_iff, Z.eqb_eq, IH. intros [-> ->]. reflexivity.
  - intros [= -> ->]. rewrite Z.eqb_refl. now apply IH.
Qed.

Lemma clean_spec (seg : str) :
  clean seg = true ->
  noslash seg /\ seg <> [] /\ seg <> [path.dot] /\ seg <> [path.dot; path.dot].
Proof.
  unfold clean. rewrite !andb_true_iff, !negb_true_iff.
  intros [[[Hns H0] H1] H2]. repeat split.
  - intros Hin. rewrite forallb_forall in Hns. specialize (Hns _ Hin).
    now rewrite Z.eqb_refl in Hns.
  - intros ->. discriminate H0.
  - intros ->. discriminate H1.
  - intros ->. discriminate H2.
Qed.

Lemma split_noslash (seg : str) : noslash seg -> path.split seg = [seg].
Proof.
  induction seg as [|c seg IH]; intros Hns; [reflexivity|].
  cbn [path.split].
  destruct (c =? path.slash) eqn:E.
  - apply Z.eqb_eq in E. exfalso. apply Hns. now left.
  - rewrite IH; [reflexivity|]. intros Hin. apply Hns. now right.
Qed.

Lemma split_app (seg rest : str) :
  noslash seg ->
  path.split (seg ++ path.slash :: rest) = seg :: path.split rest.
Proof.
  induction seg as [|c seg IH]; intros Hns.
  - cbn [app path.split]. now rewrite Z.eqb_refl.
  - cbn [app path.split].
    destruct (c =? path.slash) eqn:E.
    + apply Z.eqb_eq in E. exfalso. apply Hns. now left.
    + rewrite IH; [reflexivity|]. intros Hin. apply Hns. now right.
Qed.

Lemma split_join (segs : list str) :
  Forall noslash segs -> segs <> [] ->
  path.split (path.join_segments segs) = segs.
Proof.
  induction 1 as [|seg rest Hseg Hrest IH]; intros Hne; [congruence|].
  destruct rest as [|seg' rest]; [now apply split_noslash|].
  change (path.join_segments (seg :: seg' :: rest))
    with (seg ++ path.slash :: path.join_segments (seg' :: rest)).
  rewrite split_app by assumption. now rewrite IH.
Qed.

Lemma join_segments_app (a b : list str) :
  a <> [] -> b <> [] ->
  path.join_segments (a ++ b) =
  path.join_segments a ++ path.slash :: path.join_segments b.
Proof.
  intros Ha Hb. induction a as [|seg a IH]; [congruence|].
  destruct a as [|seg' a].
  - destruct b as [|seg' b]; [congruence | reflexivity].
  - change (path.join_segments ((seg :: seg' :: a) ++ b))
      with (seg ++ path.slash :: path.join_segments ((seg' :: a) ++ b)).
    rewrite IH by discriminate.
    change (path.join_segments (seg :: seg' :: a))
      with (seg ++ path.slash :: path.join_segments (seg' :: a)).
    now rewrite <- app_assoc.
Qed.

Lemma step_clean (allow : bool) (res : list str) (seg : str) :
  clean seg = true -> path.step allow res seg = seg :: res.
Proof.
  unfold clean, path.step. rewrite !andb_true_iff, !negb_true_iff.
  intros [[[_ H0] H1] H2]. now rewrite H0, H1, H2.
Qed.

Lemma fold_step_clean (allow : bool) (segs res : list str) :
  Forall (fun seg => clean seg = true) segs ->
  fold_left (path.step allow) segs res = rev segs ++ res.
Proof.
  intros H. revert res. induction H as [|seg segs Hseg _ IH]; intros res;
    [reflexivity|].
  cbn [fold_left rev]. rewrite step_clean by assumption.
  now rewrite IH, <- app_assoc.
Qed.

Lemma join_segments_last (segs : list str) :
  Forall (fun seg => clean seg = true) segs -> segs <> [] ->
  path.join_segments segs <> [] /\
  last (path.join_segments segs) 0 <> path.slash.
Proof.
  induction 1 as [|seg rest Hseg Hrest IH]; intros Hne; [congruence|].
  apply clean_spec in Hseg as (Hns & Hnonempty & _).
  destruct rest as [|seg' rest].
  - cbn [path.join_segments]. split; [assumption|].
    intros Hlast. apply Hns. rewrite <- Hlast.
    destruct (exists_last Hnonempty) as (front & c & ->).
    rewrite last_last. apply in_or_app. right. now left.
  - change (path.join_segments (seg :: seg' :: rest))
      with (seg ++ path.slash :: path.join_segments (seg' :: rest)).
    destruct IH as [IHne IHlast]; [discriminate|].
    split; [destruct seg; discriminate|].
    destruct (exists_last IHne) as (front & c & Hc). rewrite Hc in *.
    rewrite last_last in IHlast.
    replace (seg ++ path.slash :: front ++ [c])
      with ((seg ++ path.slash :: front) ++ [c])
      by (now rewrite <- app_assoc).
    now rewrite last_last.
Qed.

(** Normalizing an absolute path whose segments resolve to [kept]. *)
Lemma normalize_absolute (segs kept : list str) :
  Forall noslash segs -> segs <> [] ->
  last (path.join_segments segs) 0 <> path.slash ->
  fold_left (path.step false) segs [] = rev kept ->
  Forall (fun seg => clean seg = true) kept -> kept <> [] ->
  path.normalize (absolute segs) = absolute kept.
Proof.
  intros Hns Hne Hlast Hfold Hclean Hkept.
  destruct (join_segments_last kept Hclean Hkept) as [Hjoin _].
  unfold absolute, path.normalize.
  rewrite Z.eqb_refl. cbn [negb].
  assert (Hnorm : path.normalizeString (path.slash :: path.join_segments segs) false
                  = path.join_segments kept).
  { unfold path.normalizeString. cbn [path.split]. rewrite Z.eqb_refl.
    rewrite split_join by assumption. cbn [fold_left].
    change (path.step false [] []) with (@nil str).
    now rewrite Hfold, rev_involutive. }
  rewrite Hnorm.
  assert (Htrail : (last (path.slash :: path.join_segments segs) 0 =? path.slash) = false).
  { apply Z.eqb_neq.
    destruct (path.join_segments segs) as [|c l] eqn:E.
    - destruct segs as [|seg [|seg' rest]]; [congruence| |].
      + inversion Hns as [|? ? Hseg _]; subst. cbn in E. subst seg.
        exfalso. cbn in Hfold. destruct kept; [congruence|].
        cbn in Hfold. now destruct (rev kept).
      + cbn in E. now destruct seg.
    - exact Hlast. }
  rewrite Htrail.
  destruct (path.join_segments kept); [congruence | reflexivity].
Qed.

Lemma normalize_clean (kept : list str) :
  Forall (fun seg => clean seg = true) kept -> kept <> [] ->
  path.normalize (absolute kept) = absolute kept.
Proof.
  intros Hclean Hne.
  apply normalize_absolute; try assumption.
  - eapply Forall_impl; [|exact Hclean]. intros seg H. now apply clean_spec in H.
  - now apply join_segments_last.
  - now rewrite fold_step_clean, app_nil_r.
Qed.

Lemma last_after_slash (x y : str) :
  y <> [] -> last (x ++ path.slash :: y) 0 = last y 0.
Proof.
  intros Hy. destruct (exists_last Hy) as (front & c & ->).
  replace (x ++ path.slash :: front ++ [c]) with ((x ++ path.slash :: front) ++ [c])
    by (now rewrite <- app_assoc).
  now rewrite !last_last.
Qed.

Lemma join_segments_plain (segs : list str) :
  Forall (fun seg => noslash seg /\ seg <> []) segs -> segs <> [] ->
  path.join_segments segs <> [] /\
  last (path.join_segments segs) 0 <> path.slash /\
  strip_leading_slashes (absolute segs) = path.join_segments segs.
Proof.
  induction 1 as [|seg rest [Hns Hnonempty] Hrest IH]; intros Hne; [congruence|].
  assert (Hhead : strip_leading_slashes (absolute (seg :: rest))
                  = path.join_segments (seg :: rest)).
  { unfold absolute. cbn [strip_leading_slashes]. rewrite Z.eqb_refl.
    destruct seg as [|c seg]; [congruence|].
    assert (Hc : (c =? path.slash) = false).
    { apply Z.eqb_neq. intros ->. apply Hns. now left. }
    destruct rest; cbn [path.join_segments app strip_leading_slashes];
      now rewrite Hc. }
  destruct rest as [|seg' rest].
  - cbn [path.join_segments] in *. split; [assumption|]. split; [|exact Hhead].
    intros Hlast. apply Hns. rewrite <- Hlast.
    destruct (exists_last Hnonempty) as (front & c & ->).
    rewrite last_last. apply in_or_app. right. now left.
  - destruct IH as (IHne & IHlast & _); [discriminate|].
    change (path.join_segments (seg :: seg' :: rest))
      with (seg ++ path.slash :: path.join_segments (seg' :: rest)) in *.
    split; [destruct seg; discriminate|]. split; [|exact Hhead].
    now rewrite last_after_slash.
Qed.

Lemma clean_client : clean (ascii_codes "client") = true.
Proof. reflexivity. Qed.

Lemma join_nonempty (a b : str) :
  a <> [] -> b <> [] -> path.join a b = path.normalize (a ++ path.slash :: b).
Proof. destruct a, b; congruence || reflexivity. Qed.

Lemma absolute_app (a b : list str) :
  a <> [] -> b <> [] ->
  absolute a ++ path.slash :: path.join_segments b = absolute (a ++ b).
Proof.
  intros Ha Hb. unfold absolute. now rewrite join_segments_app.
Qed.

Lemma clientDir_absolute (dirs : list str) :
  Forall (fun seg => clean seg = true) dirs -> dirs <> [] ->
  clientDir (absolute dirs) = absolute (dirs ++ [ascii_codes "client"]).
Proof.
  intros Hclean Hne. unfold clientDir.
  rewrite join_nonempty by discriminate.
  change (ascii_codes "client") with (path.join_segments [ascii_codes "client"]) at 1.
  rewrite absolute_app by (assumption || discriminate).
  apply normalize_clean.
  - apply Forall_app. split; [assumption|]. constructor; [reflexivity | constructor].
  - now destruct dirs.
Qed.

(** The path that [resolveClientPath] tests and returns. *)
Lemma resolveClientPath_kept (dirs segs kept : list str) :
  Forall (fun seg => clean seg = true) dirs -> dirs <> [] ->
  Forall (fun seg => noslash seg /\ seg <> []) segs -> segs <> [] ->
  fold_left (path.step false) segs (rev (dirs ++ [ascii_codes "client"])) = rev kept ->
  Forall (fun seg => clean seg = true) kept -> kept <> [] ->
  resolveClientPath (absolute dirs) (absolute segs) =
  if startsWith (absolute kept) (absolute (dirs ++ [ascii_codes "client"]))
  then Some (absolute kept) else None.
Proof.
  intros Hdirs Hdne Hsegs Hsne Hfold Hkept Hkne.
  destruct (join_segments_plain segs Hsegs Hsne) as (Hjne & Hlast & Hstrip).
  unfold resolveClientPath. rewrite Hstrip, clientDir_absolute by assumption.
  assert (Hjoin : path.join (absolute (dirs ++ [ascii_codes "client"]))
                            (path.join_segments segs) = absolute kept).
  { rewrite join_nonempty by (assumption || discriminate).
    rewrite absolute_app by (assumption || now destruct dirs).
    apply normalize_absolute; try assumption.
    - apply Forall_app. split.
      + apply Forall_app. split.
        * eapply Forall_impl; [|exact Hdirs]. intros seg H. now apply clean_spec in H.
        * constructor; [|constructor]. now apply (clean_spec _ clean_client).
      + eapply Forall_impl; [|exact Hsegs]. now intros seg [H _].
    - now destruct dirs.
    - rewrite join_segments_app by (assumption || now destruct dirs).
      rewrite last_after_slash by assumption. exact Hlast.
    - rewrite fold_left_app.
      rewrite (fold_step_clean false (dirs ++ [ascii_codes "client"]) []).
      + rewrite app_nil_r. exact Hfold.
      + apply Forall_app. split; [assumption|].
        constructor; [reflexivity | constructor]. }
  rewrite Hjoin, normalize_clean by assumption.
  now destruct (startsWith _ _).
Qed.

Lemma startsWith_common (x y z : str) :
  startsWith (x ++ y) (x ++ z) = startsWith y z.
Proof.
  induction x as [|c x IH]; [reflexivity|].
  cbn [app startsWith]. now rewrite Z.eqb_refl, IH.
Qed.

Lemma startsWith_nil (s : str) : startsWith s [] = true.
Proof. now destruct s. Qed.

Lemma startsWith_before_slash (name more sub : str) :
  noslash sub ->
  startsWith (name ++ path.slash :: more) sub = startsWith name sub.
Proof.
  revert sub. induction name as [|n name IH]; intros [|d sub] Hns; cbn [app startsWith];
    try reflexivity.
  - replace (d =? path.slash) with false; [reflexivity|].
    symmetry. apply Z.eqb_neq. intros ->. apply Hns. now left.
  - rewrite IH; [reflexivity|]. intros Hin. apply Hns. now right.
Qed.

(** X18.  A request path made of ordinary segments (no empty, [.] or
    [..] segment) resolves to the file of that path under the client
    directory. *)
Theorem resolveClientPath_plain (dirs segs : list str) :
  Forall (fun seg => clean seg = true) dirs -> dirs <> [] ->
  Forall (fun seg => clean seg = true) segs -> segs <> [] ->
  resolveClientPath (absolute dirs) (absolute segs) =
  Some (clientDir (absolute dirs) ++ path.slash :: path.join_segments segs).
Proof.
  intros Hdirs Hdne Hsegs Hsne.
  assert (Hcne : dirs ++ [ascii_codes "client"] <> []) by now destruct dirs.
  rewrite (resolveClientPath_kept dirs segs ((dirs ++ [ascii_codes "client"]) ++ segs));
    try assumption.
  - rewrite clientDir_absolute by assumption. unfold absolute.
    rewrite join_segments_app by assumption.
    cbn [startsWith]. rewrite Z.eqb_refl. cbn [andb].
    rewrite <- (app_nil_r (path.join_segments (dirs ++ [ascii_codes "client"]))) at 2.
    now rewrite startsWith_common, startsWith_nil.
  - eapply Forall_impl; [|exact Hsegs]. intros seg H.
    apply clean_spec in H. tauto.
  - rewrite fold_step_clean by assumption. symmetry. apply rev_app_distr.
  - apply Forall_app. split; [|assumption].
    apply Forall_app. split; [assumption|]. constructor; [reflexivity | constructor].
  - now destruct dirs.
Qed.

Lemma resolveClientPath_plain_witness :
  resolveClientPath (ascii_codes "/srv/app") (ascii_codes "/assets/logo.png") =
  Some (ascii_codes "/srv/app/client/assets/logo.png").
Proof.
  apply (resolveClientPath_plain [ascii_codes "srv"; ascii_codes "app"]
           [ascii_codes "assets"; ascii_codes "logo.png"]);
    try discriminate; repeat constructor.
Defined.

(** X19.  The test [normalized.startsWith(clientDir)] compares strings,
    not directories: the request path [/../name/...] resolves to the
    file of that path in the directory [name] beside the client
    directory whenever [name] begins with the letters [client], and to
    [null] for any other [name]. *)
Theorem resolveClientPath_sibling (dirs rest : list str) (name : str) :
  Forall (fun seg => clean seg = true) dirs -> dirs <> [] ->
  clean name = true ->
  Forall (fun seg => clean seg = true) rest ->
  resolveClientPath (absolute dirs)
    (absolute ([path.dot; path.dot] :: name :: rest)) =
  if startsWith name (ascii_codes "client")
  then Some (absolute (dirs ++ name :: rest))
  else None.
Proof.
  intros Hdirs Hdne Hname Hrest.
  assert (Hnr : Forall (fun seg => clean seg = true) (name :: rest))
    by now constructor.
  rewrite (resolveClientPath_kept dirs _ (dirs ++ name :: rest)); try assumption.
  - unfold absolute. rewrite !join_segments_app by (assumption || discriminate).
    cbn [startsWith]. rewrite Z.eqb_refl. cbn [andb].
    change (path.join_segments dirs ++ path.slash :: path.join_segments (name :: rest))
      with (path.join_segments dirs ++ [path.slash] ++ path.join_segments (name :: rest)).
    change (path.join_segments dirs ++
            path.slash :: path.join_segments [ascii_codes "client"])
      with (path.join_segments dirs ++ [path.slash] ++ ascii_codes "client").
    rewrite !app_assoc, startsWith_common.
    destruct rest as [|seg rest]; [reflexivity|].
    change (path.join_segments (name :: seg :: rest))
      with (name ++ path.slash :: path.join_segments (seg :: rest)).
    now rewrite startsWith_before_slash by apply (clean_spec _ clean_client).
  - constructor; [split; [|discriminate]; intros [H|[H|[]]]; discriminate H|].
    eapply Forall_impl; [|exact Hnr]. intros seg H. apply clean_spec in H. tauto.
  - discriminate.
  - rewrite rev_app_distr.
    change (rev [ascii_codes "client"] ++ rev dirs)
      with (ascii_codes "client" :: rev dirs).
    change (fold_left (path.step false) ([path.dot; path.dot] :: name :: rest)
              (ascii_codes "client" :: rev dirs))
      with (fold_left (path.step false) (name :: rest) (rev dirs)).
    rewrite fold_step_clean by exact Hnr. symmetry. apply rev_app_distr.
  - apply Forall_app. now split.
  - now destruct dirs.
Qed.

Lemma resolveClientPath_sibling_witness :
  resolveClientPath (ascii_codes "/srv/app") (ascii_codes "/../client-old/secret.txt") =
  Some (ascii_codes "/srv/app/client-old/secret.txt").
Proof.
  apply (resolveClientPath_sibling [ascii_codes "srv"; ascii_codes "app"]
           [ascii_codes "secret.txt"] (ascii_codes "client-old"));
    try discriminate; repeat constructor.
Defined.

(** ** The entropy on the wire *)

Lemma list_ind3 {A : Type} (P : list A -> Prop) :
  P [] -> (forall a, P [a]) -> (forall a b, P [a; b]) ->
  (forall a b c l, P l -> P (a :: b :: c :: l)) ->
  forall l, P l.
Proof.
  intros H0 H1 H2 H3. fix IH 1.
  intros [|a [|b [|c l]]];
    [exact H0 | apply H1 | apply H2 | apply H3; apply IH].
Qed.

Lemma value_char (s : Z) :
  is_sextet s ->
  base64.value (base64.char s) = Some s /\ base64.char s <> base64.pad.
Proof.
  intros Hs.
  assert (Hall : forallb (fun n =>
            match base64.value (base64.char (Z.of_nat n)) with
            | Some v => (v =? Z.of_nat n) && negb (base64.char (Z.of_nat n) =? base64.pad)
            | None => false
            end) (seq 0 64) = true) by (vm_compute; reflexivity).
  rewrite forallb_forall in Hall.
  assert (Hin : In (Z.to_nat s) (seq 0 64))
    by (apply in_seq; unfold is_sextet in Hs; lia).
  specialize (Hall _ Hin). rewrite Z2Nat.id in Hall by apply Hs.
  destruct (base64.value (base64.char s)) as [v|]; [|discriminate].
  apply andb_true_iff in Hall as [Hv Hp].
  apply Z.eqb_eq in Hv. apply negb_true_iff, Z.eqb_neq in Hp. now subst.
Qed.

Ltac byte_bounds :=
  repeat match goal with
         | H : Forall is_byte (_ :: _) |- _ =>
             let Hx := fresh "Hx" in
             inversion H as [|? ? Hx ?]; subst; clear H; unfold is_byte in Hx
         end.

Ltac divlia := Z.div_mod_to_equations; lia.

Lemma sextets_range (bytes : Buffer) :
  Forall is_byte bytes -> Forall is_sextet (base64.sextets bytes).
Proof.
  unfold is_sextet.
  induction bytes as [|a|a b|a b c l IH] using list_ind3; intros Hb;
    cbn [base64.sextets]; byte_bounds.
  - constructor.
  - repeat (constructor; [divlia|]). constructor.
  - repeat (constructor; [divlia|]). constructor.
  - repeat (constructor; [divlia|]). now apply IH.
Qed.

Lemma values_chars (ss : list Z) (k : nat) :
  Forall is_sextet ss ->
  base64.values (map base64.char ss ++ repeat base64.pad k) = Some ss.
Proof.
  induction 1 as [|s ss Hs _ IH].
  - destruct k; reflexivity.
  - cbn [map app base64.values].
    destruct (value_char s Hs) as [Hv Hp].
    apply Z.eqb_neq in Hp. now rewrite Hp, Hv, IH.
Qed.

Lemma bytes_of_sextets (bytes : Buffer) :
  Forall is_byte bytes -> base64.bytes_of (base64.sextets bytes) = bytes.
Proof.
  induction bytes as [|a|a b|a b c l IH] using list_ind3; intros Hb;
    cbn [base64.sextets base64.bytes_of]; byte_bounds.
  - reflexivity.
  - f_equal. divlia.
  - f_equal; [divlia|]. f_equal. divlia.
  - rewrite IH by assumption. f_equal; [divlia|]. f_equal; [divlia|]. f_equal. divlia.
Qed.

(** X20.  Decoding what [btoa] produces gives the bytes back, for every
    byte string. *)
Theorem base64_round_trip (bytes : Buffer) :
  Forall is_byte bytes -> base64.from (base64.btoa bytes) = Some bytes.
Proof.
  intros Hb. unfold base64.from, base64.btoa.
  rewrite values_chars by now apply sextets_range.
  cbn [option_map]. now rewrite bytes_of_sextets.
Qed.

Lemma base64_round_trip_witness :
  base64.btoa zero_seed = ascii_codes "AAAAAAAAAAAAAAAAAAAAAAAAAAAAAAAAAAAAAAAAAAA=" /\
  base64.from (base64.btoa zero_seed) = Some zero_seed.
Proof.
  split; [reflexivity|].
  apply (base64_round_trip zero_seed). repeat constructor; discriminate.
Defined.

(** X21.  What the front end sends always passes the handler's size
    check: whatever the recorded movements, the text stored by
    [computeEntropy] decodes to the SHA-256 digest itself, which is 32
    bytes long. *)
Theorem client_entropy_is_accepted (data : Buffer) :
  exists seed,
    base64.from (client_entropy data) = Some seed /\
    seed = SHA256.hash data /\
    List.length seed = 32%nat /\
    forall fuel s,
      try_block fuel (Some {| entropy := Some seed; settings := Some s |}) =
      generatePassword fuel seed s.
Proof.
  exists (SHA256.hash data). unfold client_entropy.
  assert (Hlen : List.length (SHA256.hash data) = 32%nat)
    by (unfold SHA256.hash; apply digest_length).
  split; [|split; [reflexivity | split; [exact Hlen|]]].
  - apply base64_round_trip. unfold SHA256.hash. apply digest_bytes.
  - intros fuel s. unfold try_block. now rewrite Hlen.
Qed.

(** ** The sampler is unbiased *)

Lemma filter_none {A : Type} (f : A -> bool) (l : list A) :
  (forall x, In x l -> f x = false) -> filter f l = [].
Proof.
  intros H. rewrite (filter_ext_in f (fun _ => false) l H). apply filter_false.
Qed.

(** Among [len] consecutive numbers from [start], one equals
    [start + i] when [i < len]. *)
Lemma one_match_in_seq (start len i : nat) :
  (i < len)%nat ->
  List.length (filter (fun j => (j =? start + i)%nat) (seq start len)) = 1%nat.
Proof.
  revert start i. induction len as [|len IH]; intros start i Hi; [lia|].
  cbn [seq filter]. destruct i as [|i].
  - rewrite Nat.add_0_r, Nat.eqb_refl. cbn [List.length]. f_equal.
    rewrite filter_none; [reflexivity|].
    intros j Hj. apply in_seq in Hj. apply Nat.eqb_neq. lia.
  - replace (start =? start + S i)%nat with false
      by (symmetry; apply Nat.eqb_neq; lia).
    replace (start + S i)%nat with (S start + i)%nat by lia.
    apply IH. lia.
Qed.

(** Among the numbers below [m * q], [q] are congruent to [i] modulo [m]. *)
Lemma residue_count (m i : Z) (q : nat) :
  0 < m -> 0 <= i < m ->
  List.length (filter (fun b => b mod m =? i)
                      (map Z.of_nat (seq 0 (Z.to_nat m * q)))) = q.
Proof.
  intros Hm Hi. induction q as [|q IH].
  - now rewrite Nat.mul_0_r.
  - replace (Z.to_nat m * S q)%nat with (Z.to_nat m * q + Z.to_nat m)%nat by lia.
    rewrite seq_app, map_app, filter_app, length_app, IH. cbn [Nat.add].
    rewrite filter_map_swap, length_map.
    rewrite (filter_ext_in _ (fun j => (j =? Z.to_nat m * q + Z.to_nat i)%nat)).
    + rewrite one_match_in_seq by lia. lia.
    + intros j Hj. apply in_seq in Hj.
      destruct (Nat.eqb_spec j (Z.to_nat m * q + Z.to_nat i)) as [Heq | Hneq].
      * apply Z.eqb_eq. replace (Z.of_nat j) with (i + Z.of_nat q * m) by lia.
        rewrite Z.mod_add by lia. apply Z.mod_small. lia.
      * apply Z.eqb_neq. intros Hmod. apply Hneq.
        assert (Hdiv : Z.of_nat j = m * (Z.of_nat j / m) + Z.of_nat j mod m)
          by (apply Z.div_mod; lia).
        assert (Hq : Z.of_nat j / m = Z.of_nat q).
        { symmetry. apply (Z.div_unique _ _ _ (Z.of_nat j - m * Z.of_nat q)); lia. }
        rewrite Hq, Hmod in Hdiv. lia.
Qed.

Lemma below_threshold (g : Z -> bool) (M : nat) :
  (M <= 256)%nat ->
  filter (fun b => (b <? Z.of_nat M) && g b) (map Z.of_nat (seq 0 256)) =
  filter g (map Z.of_nat (seq 0 M)).
Proof.
  intros HM. replace 256%nat with (M + (256 - M))%nat at 1 by lia.
  rewrite seq_app, map_app, filter_app.
  rewrite (filter_none _ (map Z.of_nat (seq (0 + M) (256 - M)))), app_nil_r.
  - apply filter_ext_in. intros b Hb.
    apply in_map_iff in Hb as (j & <- & Hj). apply in_seq in Hj.
    replace (Z.of_nat j <? Z.of_nat M) with true; [reflexivity|].
    symmetry. apply Z.ltb_lt. lia.
  - intros b Hb. apply in_map_iff in Hb as (j & <- & Hj). apply in_seq in Hj.
    replace (Z.of_nat j <? Z.of_nat M) with false; [reflexivity|].
    symmetry. apply Z.ltb_ge. lia.
Qed.

(** X22.  Rejection sampling is unbiased: for an alphabet of [m <= 256]
    characters, each index [i] of the alphabet is selected by exactly
    [256 / m] (rounded down) of the 256 byte values, the same number
    for every index. *)
Theorem sampler_is_unbiased (m i : Z) :
  0 < m <= 256 -> 0 <= i < m ->
  List.length (filter (fun byte => accepted m byte && (byte mod m =? i))
                      (map Z.of_nat (seq 0 256)))
  = Z.to_nat (256 / m).
Proof.
  intros Hm Hi. unfold accepted.
  pose proof (max_multiple m ltac:(lia)) as Hmax.
  pose proof (max_le_256 m ltac:(lia)) as Hle.
  assert (Hq : 0 <= 256 / m) by (apply Z.div_pos; lia).
  replace (max m) with (Z.of_nat (Z.to_nat m * Z.to_nat (256 / m))) by lia.
  rewrite below_threshold by lia.
  now apply residue_count.
Qed.

Lemma sampler_is_unbiased_witness :
  List.length (filter (fun byte => accepted 94 byte && (byte mod 94 =? 93))
                      (map Z.of_nat (seq 0 256))) = 2%nat.
Proof. apply (sampler_is_unbiased 94 93); lia. Defined.
